(** * Comma repair of JSON-like text: [fix_json.py] and [fix_json_comprehensive.py]

    Both scripts read a file into a Python [str], transform it and write it
    back.  The development embeds the text-to-text part: a Python [str] is
    a list of Unicode code points, the calls into [re] are run by a small
    backtracking matcher with Python's priorities (greedy repetition first,
    leftmost match, non-overlapping substitution), and the line loop of the
    comprehensive script is a loop over an index with fallible list
    access. *)

From Stdlib Require Import String Ascii.
From Stdlib Require Import List NArith Bool Arith Lia.
Import ListNotations.

Set Implicit Arguments.

(** ** Text *)

(** A character is a Unicode code point, a text is a Python [str]. *)
Definition char := N.
Definition text := list char.

Definition text_of_string (s : string) : text :=
  map N_of_ascii (list_ascii_of_string s).

Definition char_eqb (a b : char) : bool := N.eqb a b.

Definition LF : char := 10%N.        (* '\n' *)
Definition QUOTE : char := 34%N.     (* the double quote, Q below *)
Definition COMMA : char := 44%N.     (* ','  *)
Definition COLON : char := 58%N.     (* ':'  *)
Definition LBRACE : char := 123%N.   (* '{'  *)
Definition RBRACE : char := 125%N.   (* '}'  *)

(** [str.isspace] on one character, which is also what [\s] matches in a
    [str] pattern and what [str.strip()] removes: CPython's
    [_PyUnicode_IsWhitespace]. *)
Definition isspace (c : char) : bool :=
  ((9 <=? c) && (c <=? 13) || (28 <=? c) && (c <=? 32)
   || (c =? 133) || (c =? 160) || (c =? 5760)
   || (8192 <=? c) && (c <=? 8202)
   || (c =? 8232) || (c =? 8233) || (c =? 8239) || (c =? 8287)
   || (c =? 12288))%N.

(** ** The fragment of [re] the scripts use *)

(** One-character items: a literal, [\s], and a negated set [[^...]]. *)
Inductive cset : Type :=
| Lit (c : char)
| Space
| NoneOf (cs : list char).

Definition cset_match (s : cset) (c : char) : bool :=
  match s with
  | Lit d => char_eqb c d
  | Space => isspace c
  | NoneOf cs => negb (existsb (char_eqb c) cs)
  end.

(** Patterns: items, greedy [*] and [+] on an item, concatenation and
    numbered capturing groups. *)
Inductive regex : Type :=
| Eps
| One (s : cset)
| Star (s : cset)
| Plus (s : cset)
| Seq (r1 r2 : regex)
| Group (n : nat) (r : regex).

(** Captures of a match: group number to captured text. *)
Definition captures := list (nat * text).

Fixpoint group (caps : captures) (n : nat) : text :=
  match caps with
  | [] => []
  | (m, t) :: caps' => if Nat.eqb n m then t else group caps' n
  end.

(** A match attempt either fails or yields the captures and the text left
    after the match. *)
Definition outcome := option (captures * text).

(** Greedy repetition of a character test: take one more character when
    the test allows it, and come back to the shorter run when the rest of
    the pattern fails after the longer one. *)
Fixpoint rep (p : char -> bool) (s : text) (k : text -> outcome) : outcome :=
  match s with
  | c :: s' =>
      if p c then
        match rep p s' k with
        | Some r => Some r
        | None => k s
        end
      else k s
  | [] => k s
  end.

(** The matcher proper, in continuation-passing style: [k] is the rest of
    the pattern. *)
Fixpoint exec (r : regex) (s : text) (caps : captures)
         (k : text -> captures -> outcome) : outcome :=
  match r with
  | Eps => k s caps
  | One cs =>
      match s with
      | c :: s' => if cset_match cs c then k s' caps else None
      | [] => None
      end
  | Star cs => rep (cset_match cs) s (fun s' => k s' caps)
  | Plus cs =>
      match s with
      | c :: s' =>
          if cset_match cs c
          then rep (cset_match cs) s' (fun s'' => k s'' caps)
          else None
      | [] => None
      end
  | Seq r1 r2 => exec r1 s caps (fun s' caps' => exec r2 s' caps' k)
  | Group n r1 =>
      exec r1 s caps
           (fun s' caps' =>
              k s' ((n, firstn (length s - length s') s) :: caps'))
  end.

(** [re.match(pattern, s)]: a match anchored at the start of [s]. *)
Definition re_match (r : regex) (s : text) : outcome :=
  exec r s [] (fun s' caps => Some (caps, s')).

(** Truth value of a match object: [None] is false. *)
Definition is_match (o : outcome) : bool :=
  match o with
  | Some _ => true
  | None => false
  end.

(** [re.sub(pattern, repl, s)]: scan from the left; at a position where the
    pattern matches, emit the replacement and go on after the match;
    elsewhere copy the character.  [skip] counts the characters of the
    current match still to pass over, which keeps the recursion on the
    text.  The patterns of both scripts start with a mandatory character,
    so a match is never empty. *)
Fixpoint sub_from (r : regex) (repl : captures -> text)
         (skip : nat) (s : text) : text :=
  match s with
  | [] => []
  | c :: s' =>
      match skip with
      | S n => sub_from r repl n s'
      | O =>
          match re_match r s with
          | Some (caps, rest) =>
              repl caps ++ sub_from r repl (length s' - length rest) s'
          | None => c :: sub_from r repl 0 s'
          end
      end
  end.

Definition re_sub (r : regex) (repl : captures -> text) (s : text) : text :=
  sub_from r repl 0 s.

(** ** The patterns *)

Fixpoint seq_of (rs : list regex) : regex :=
  match rs with
  | [] => Eps
  | [r] => r
  | r :: rs' => Seq r (seq_of rs')
  end.

(** [\s*Q[^Q]+Q\s*:\s*{], the pattern of [re.match] in the line loop. *)
Definition key_open_items : list regex :=
  [One (Lit QUOTE); Plus (NoneOf [QUOTE]); One (Lit QUOTE);
   Star Space; One (Lit COLON); Star Space; One (Lit LBRACE)].

Definition pat_key_open : regex := seq_of (Star Space :: key_open_items).

(** [(\s+})\n(\s+Q[^Q]+Q\s*:\s*{)], the pattern of both [re.sub] that
    add commas. *)
Definition pat_brace_key : regex :=
  seq_of [Group 1 (Seq (Plus Space) (One (Lit RBRACE)));
          One (Lit LF);
          Group 2 (seq_of (Plus Space :: key_open_items))].

(** [,(\s*})], the pattern of the trailing-comma cleanup. *)
Definition pat_trailing_comma : regex :=
  Seq (One (Lit COMMA)) (Group 1 (Seq (Star Space) (One (Lit RBRACE)))).

(** ** [fix_json.py] *)

(** [add_comma]: [f'{indent},\n{key_line}'] with [indent = match.group(1)]
    and [key_line = match.group(2)]. *)
Definition add_comma (m : captures) : text :=
  group m 1 ++ [COMMA; LF] ++ group m 2.

(** The text-to-text part of [fix_json_syntax]:
    [re.sub(pattern, add_comma, content)]. *)
Definition fix_json_syntax (content : text) : text :=
  re_sub pat_brace_key add_comma content.

(** ** [fix_json_comprehensive.py] *)

(** *** String methods *)

(** [s.split('\n')]: the pieces between line feeds; never an empty list. *)
Fixpoint split (sep : char) (s : text) : list text :=
  match s with
  | [] => [[]]
  | c :: s' =>
      if char_eqb c sep then [] :: split sep s'
      else match split sep s' with
           | l :: ls => (c :: l) :: ls
           | [] => [[c]]
           end
  end.

(** [sep.join(pieces)]. *)
Fixpoint join (sep : text) (pieces : list text) : text :=
  match pieces with
  | [] => []
  | [l] => l
  | l :: ls => l ++ sep ++ join sep ls
  end.

(** [s.strip()]: drop the white space at both ends. *)
Fixpoint lstrip (s : text) : text :=
  match s with
  | c :: s' => if isspace c then lstrip s' else s
  | [] => []
  end.

Definition rstrip (s : text) : text := rev (lstrip (rev s)).

Definition strip (s : text) : text := rstrip (lstrip s).

Fixpoint startswith (s p : text) {struct p} : bool :=
  match p, s with
  | [], _ => true
  | d :: p', c :: s' => char_eqb c d && startswith s' p'
  | _ :: _, [] => false
  end.

(** [s.endswith(suffix)]. *)
Definition endswith (s suffix : text) : bool :=
  startswith (rev s) (rev suffix).

(** *** Results of code that can raise *)

(** [lines[i]] raises [IndexError] out of range.  [Timeout] is not a
    Python outcome: it marks a loop that has used up the iterations the
    model grants it. *)
Inductive result (A : Type) : Type :=
| Ok (a : A)
| IndexError
| Timeout.

Arguments IndexError {A}.
Arguments Timeout {A}.

Definition bind {A B : Type} (m : result A) (f : A -> result B) : result B :=
  match m with
  | Ok a => f a
  | IndexError => IndexError
  | Timeout => Timeout
  end.

Notation "x <- m ;; f" := (bind m (fun x => f))
  (at level 61, m at next level, right associativity).

Definition getitem {A : Type} (l : list A) (i : nat) : result A :=
  match nth_error l i with
  | Some a => Ok a
  | None => IndexError
  end.

(** *** The line loop *)

(** The condition of the [if]: [and] evaluates its right operand only when
    the left one holds, so [lines[i + 1]] is read under the guard
    [i + 1 < len(lines)] and nowhere else. *)
Definition needs_comma (lines : list text) (i : nat) (line : text)
  : result bool :=
  if endswith (strip line) [RBRACE] then
    if i + 1 <? length lines then
      next <- getitem lines (i + 1) ;;
      Ok (is_match (re_match pat_key_open next))
    else Ok false
  else Ok false.

(** [while i < len(lines): ...; i += 1], with [fuel] iterations granted. *)
Fixpoint line_loop (fuel : nat) (lines : list text) (i : nat)
         (fixed_lines : list text) : result (list text) :=
  if i <? length lines then
    match fuel with
    | O => Timeout
    | S fuel' =>
        line <- getitem lines i ;;
        c <- needs_comma lines i line ;;
        line_loop fuel' lines (i + 1)
                  (fixed_lines ++ [if c then line ++ [COMMA] else line])
    end
  else Ok fixed_lines.

(** [r'\1'] and [r'\1,\n\2'], the replacement templates of the two
    substitutions. *)
Definition keep_brace (m : captures) : text := group m 1.

Definition comma_between (m : captures) : text :=
  group m 1 ++ [COMMA; LF] ++ group m 2.

(** The text-to-text part of [fix_json_comprehensive]. The loop runs once
    per line, so it is granted [len(lines)] iterations. *)
Definition fix_json_comprehensive (content : text) : result text :=
  let lines := split LF content in
  fixed_lines <- line_loop (length lines) lines 0 [] ;;
  let fixed_content := join [LF] fixed_lines in
  let fixed_content := re_sub pat_trailing_comma keep_brace fixed_content in
  let fixed_content := re_sub pat_brace_key comma_between fixed_content in
  Ok fixed_content.

(** * Vocabulary of the properties *)

(** ** Runs of characters *)

(** The text after, and the text of, the longest run of characters of a
    class at the start of a text. *)
Fixpoint drop_while (p : char -> bool) (s : text) : text :=
  match s with
  | c :: s' => if p c then drop_while p s' else s
  | [] => []
  end.

Fixpoint take_while (p : char -> bool) (s : text) : text :=
  match s with
  | c :: s' => if p c then c :: take_while p s' else []
  | [] => []
  end.

(** Every character of the text is in the class. *)
Definition all (p : char -> bool) (s : text) : Prop := forallb p s = true.

(** The class [[^Q]]. *)
Definition notquote (c : char) : bool := negb (char_eqb c QUOTE).

(** ** The patterns as functions *)

(** The patterns again, as functions that consume a prefix and return the
    rest of the text; [andthen] chains the steps. *)
Definition andthen {A B : Type} (o : option A) (f : A -> option B)
  : option B :=
  match o with
  | Some a => f a
  | None => None
  end.

Notation "o >>= f" := (andthen o f) (at level 50, left associativity).

(** One given character. *)
Definition eat (c : char) (s : text) : option text :=
  match s with
  | d :: s' => if char_eqb d c then Some s' else None
  | [] => None
  end.

(** A run of one character or more of a class, taken whole. *)
Definition eat_run (p : char -> bool) (s : text) : option text :=
  match s with
  | c :: s' => if p c then Some (drop_while p s') else None
  | [] => None
  end.

(** Quoted key, colon and opening brace, without white space in front. *)
Definition key_open (s : text) : option text :=
  eat QUOTE s >>= eat_run notquote >>= eat QUOTE
    >>= (fun s3 => eat COLON (drop_while isspace s3))
    >>= (fun s4 => eat LBRACE (drop_while isspace s4)).

(** White space, closing brace: group 1 of the comma-adding pattern. *)
Definition brace_end (s : text) : option text :=
  eat_run isspace s >>= eat RBRACE.

(** White space, quoted key, colon, opening brace: group 2. *)
Definition key_line (s : text) : option text :=
  eat_run isspace s >>= key_open.

(** The text matched when [s] goes down to [rest]. *)
Definition matched (s rest : text) : text :=
  firstn (length s - length rest) s.

(** [r] cannot start with a character of the class [p]. *)
Definition refuses (r : regex) (p : char -> bool) : Prop :=
  forall c s caps k, p c = true -> exec r (c :: s) caps k = None.

(** [s] does not start with a character of the class [p]. *)
Definition stops (p : char -> bool) (s : text) : Prop :=
  match s with
  | c :: _ => p c = false
  | [] => True
  end.

(** ** What the patterns match, in words *)

(** The text of a quoted key with the colon and the opening brace:
    Q key Q, white space, colon, white space, opening brace. *)
Definition key_opening_of (key o : text) : Prop :=
  exists ws1 ws2,
    key <> [] /\ all notquote key /\ all isspace ws1 /\ all isspace ws2 /\
    o = QUOTE :: key ++ QUOTE :: ws1 ++ COLON :: ws2 ++ [LBRACE].

Definition key_opening (o : text) : Prop := exists key, key_opening_of key o.

(** One match attempt: group 1, group 2 and the text after the match. *)
Definition brace_key (s : text) : option (text * text * text) :=
  match brace_end s with
  | Some s1 =>
      match eat LF s1 with
      | Some s2 =>
          match key_line s2 with
          | Some rest => Some (matched s s1, matched s2 rest, rest)
          | None => None
          end
      | None => None
      end
  | None => None
  end.

(** White space and a closing brace: what group 1 holds. *)
Definition brace_end_text (g : text) : Prop :=
  exists ws, ws <> [] /\ all isspace ws /\ g = ws ++ [RBRACE].

(** White space and a key opening: what group 2 holds. *)
Definition key_line_text (g : text) : Prop :=
  exists ws o, ws <> [] /\ all isspace ws /\ key_opening o /\ g = ws ++ o.

(** One match attempt: group 1 and the text after the match. *)
Definition trailing_comma (s : text) : option (text * text) :=
  match eat COMMA s with
  | Some s1 =>
      match eat RBRACE (drop_while isspace s1) with
      | Some rest => Some (matched s1 rest, rest)
      | None => None
      end
  | None => None
  end.

(** Optional white space and a closing brace. *)
Definition brace_text (g : text) : Prop :=
  exists ws, all isspace ws /\ g = ws ++ [RBRACE].

(** ** The three passes as functions on the text *)

(** The two substitutions of the scripts. *)
Definition insert_commas (s : text) : text :=
  re_sub pat_brace_key comma_between s.

Definition remove_commas (s : text) : text :=
  re_sub pat_trailing_comma keep_brace s.

(** The two tests of the loop. *)
Definition closes (line : text) : bool := endswith (strip line) [RBRACE].

Definition opens (line : text) : bool := is_match (re_match pat_key_open line).

(** What the loop appends for a line, given the lines after it. *)
Definition fix_line (line : text) (after : list text) : text :=
  if closes line && match after with next :: _ => opens next | [] => false end
  then line ++ [COMMA] else line.

Fixpoint fix_lines (lines : list text) : list text :=
  match lines with
  | [] => []
  | line :: after => fix_line line after :: fix_lines after
  end.

(** The line loop as a function on the text: split, loop, join. *)
Definition append_commas (s : text) : text :=
  join [LF] (fix_lines (split LF s)).

(** The trimmed line ends with a closing brace: only white space follows
    the last closing brace. *)
Definition closing_brace_line (line : text) : Prop :=
  exists pre ws, all isspace ws /\ line = pre ++ RBRACE :: ws.

(** After optional white space the line begins with a quoted key, a colon
    and an opening brace. *)
Definition key_opening_line (line : text) : Prop :=
  exists ws o rest, all isspace ws /\ key_opening o /\ line = ws ++ o ++ rest.

(** ** Where the passes find something to repair *)

(** [P] holds of some suffix of the text. *)
Definition occurs (P : text -> Prop) (t : text) : Prop :=
  exists pre s, t = pre ++ s /\ P s.

(** White space, closing brace, line feed, white space, key opening: a
    match of the comma-adding pattern starts here. *)
Definition brace_key_site (s : text) : Prop :=
  exists g1 g2 rest,
    brace_end_text g1 /\ key_line_text g2 /\ s = g1 ++ LF :: g2 ++ rest.

(** Comma, optional white space, closing brace: a match of the
    trailing-comma pattern starts here. *)
Definition trailing_comma_site (s : text) : Prop :=
  exists g rest, brace_text g /\ s = COMMA :: g ++ rest.

(** Two adjacent lines pass the tests of the line loop. *)
Definition adjacent_site (lines : list text) : Prop :=
  exists pre l1 l2 post,
    lines = pre ++ l1 :: l2 :: post /\
    closing_brace_line l1 /\ key_opening_line l2.

(** Whether some suffix passes a test, and whether two adjacent lines pass
    the tests of the loop: the sites can be looked for. *)
Fixpoint any_suffix (f : text -> bool) (s : text) : bool :=
  f s || match s with
         | [] => false
         | _ :: s' => any_suffix f s'
         end.

Fixpoint any_adjacent (lines : list text) : bool :=
  match lines with
  | l1 :: (l2 :: _) as after => closes l1 && opens l2 || any_adjacent after
  | _ => false
  end.

(** An option holds a value. *)
Definition is_some {A : Type} (o : option A) : bool :=
  match o with
  | Some _ => true
  | None => false
  end.

(** ** Example texts *)

(** [n] spaces. *)
Definition indent (n : nat) : text := repeat 32%N n.

(** A string between double quotes. *)
Definition quoted (s : string) : text := QUOTE :: text_of_string s ++ [QUOTE].

(** An indented line that opens the object of a key. *)
Definition opening (n : nat) (key : string) : text :=
  indent n ++ quoted key ++ text_of_string ": {".

(** An indented line with a key and a string value. *)
Definition member (n : nat) (key value : string) : text :=
  indent n ++ quoted key ++ text_of_string ": " ++ quoted value.

(** An indented closing brace. *)
Definition closing (n : nat) : text := indent n ++ [RBRACE].

(** The two blocks of the specification's example, without and with the
    comma. *)
Definition two_blocks : text :=
  join [LF] [opening 4 "key1"; member 8 "value" "a"; closing 4;
             opening 4 "key2"; member 8 "value" "b"; closing 4].

Definition two_blocks_repaired : text :=
  join [LF] [opening 4 "key1"; member 8 "value" "a"; closing 4 ++ [COMMA];
             opening 4 "key2"; member 8 "value" "b"; closing 4].

(** A closing brace, a blank line, a key opening. *)
Definition blank_between : text :=
  join [LF] [closing 1; []; opening 1 "k"].

(** A value with a trailing comma before the closing brace. *)
Definition trailing : text := join [LF] [member 0 "value" "a" ++ [COMMA]; [RBRACE]].

(** [trailing] without the comma. *)
Definition trailing_repaired : text := join [LF] [member 0 "value" "a"; [RBRACE]].

(** ** Notions of the claims *)

(** The text has no repair site in the sense of the specification: no
    closing-brace line directly followed by a key-opening line. *)
Definition repair_site_free (t : text) : Prop :=
  ~ adjacent_site (split LF t).

(** A closing brace followed, after white space only, by a key opening:
    two members with no comma between them. *)
Definition brace_then_key (s : text) : Prop :=
  exists ws o rest,
    all isspace ws /\ key_opening o /\ s = RBRACE :: ws ++ o ++ rest.

(** The same as a test. *)
Definition brace_then_keyb (s : text) : bool :=
  match s with
  | c :: s' => char_eqb c RBRACE && is_some (key_open (drop_while isspace s'))
  | [] => false
  end.

(** The condition under which the loop appends a comma to line [i]. *)
Definition comma_due (lines : list text) (i : nat) (line : text) : Prop :=
  closing_brace_line line /\
  exists next, nth_error lines (S i) = Some next /\ key_opening_line next.

(** ** What a pass may change *)

(** The second text is the first with commas put behind closing braces
    where the comma-adding pattern matches, scanning from the left. *)
Inductive inserted_at_sites : text -> text -> Prop :=
| ias_nil : inserted_at_sites [] []
| ias_keep c t u :
    inserted_at_sites t u -> inserted_at_sites (c :: t) (c :: u)
| ias_site g1 g2 t u :
    brace_end_text g1 -> key_line_text g2 -> inserted_at_sites t u ->
    inserted_at_sites (g1 ++ LF :: g2 ++ t) (g1 ++ COMMA :: LF :: g2 ++ u).

(** The second text is the first without some commas, each of which stood
    before optional white space and a closing brace. *)
Inductive removed_before_brace : text -> text -> Prop :=
| rbb_nil : removed_before_brace [] []
| rbb_keep c t u :
    removed_before_brace t u -> removed_before_brace (c :: t) (c :: u)
| rbb_site g t u :
    brace_text g -> removed_before_brace t u ->
    removed_before_brace (COMMA :: g ++ t) (g ++ u).

(** The second list is the first with a comma appended to some lines, each
    a closing-brace line directly followed by a key-opening line. *)
Inductive appended_to_lines : list text -> list text -> Prop :=
| atl_nil : appended_to_lines [] []
| atl_keep l ls ls' :
    appended_to_lines ls ls' -> appended_to_lines (l :: ls) (l :: ls')
| atl_site l next ls ls' :
    closing_brace_line l -> key_opening_line next ->
    appended_to_lines (next :: ls) ls' ->
    appended_to_lines (l :: next :: ls) ((l ++ [COMMA]) :: ls').

(** The second text is the first with commas added, nothing else. *)
Inductive commas_added : text -> text -> Prop :=
| ca_nil : commas_added [] []
| ca_keep c t u : commas_added t u -> commas_added (c :: t) (c :: u)
| ca_add t u : commas_added t u -> commas_added t (COMMA :: u).

(** The text with its commas taken out. *)
Definition without_commas (t : text) : text :=
  filter (fun c => negb (char_eqb c COMMA)) t.

(** ** Texts on which a second repair changes nothing *)

(** Every quoted key that opens an object lies on one line. *)
Definition single_line_keys (t : text) : Prop :=
  forall pre key o post,
    t = pre ++ o ++ post -> key_opening_of key o -> ~ In LF key.

(** Two commas, separated by white space at most, before a closing
    brace. *)
Definition double_comma_site (s : text) : Prop :=
  exists ws1 ws2 rest,
    all isspace ws1 /\ all isspace ws2 /\
    s = COMMA :: ws1 ++ COMMA :: ws2 ++ RBRACE :: rest.

(** The second text is the first with commas put before some line feeds;
    [Q] holds of the text behind each such line feed. *)
Inductive commas_put (Q : text -> Prop) : text -> text -> Prop :=
| cp_nil : commas_put Q [] []
| cp_keep c x x' : commas_put Q x x' -> commas_put Q (c :: x) (c :: x')
| cp_comma x x' :
    Q x' -> commas_put Q (LF :: x) (LF :: x') ->
    commas_put Q (LF :: x) (COMMA :: LF :: x').

(** No condition. *)
Definition anything (x : text) : Prop := True.

(** White space and a quote come next. *)
Definition quote_ahead (x : text) : Prop :=
  exists ws r, all isspace ws /\ x = ws ++ QUOTE :: r.

(** White space on a line: white space other than the line feed. *)
Definition hspace (c : char) : bool := isspace c && negb (char_eqb c LF).

(** Two adjacent lines that pass the tests of the loop, seen in the flat
    text: closing brace, white space to the end of the line, white space
    on the next line, key opening without a line feed. *)
Definition line_site (s : text) : Prop :=
  exists ws ws2 o rest,
    all hspace ws /\ all hspace ws2 /\ key_opening o /\ ~ In LF o /\
    s = RBRACE :: ws ++ LF :: ws2 ++ o ++ rest.

(** A key opening starts here and its key holds a line feed. *)
Definition multi_line_keyb (s : text) : bool :=
  match s with
  | c :: s1 =>
      char_eqb c QUOTE && is_some (key_open s)
      && existsb (char_eqb LF) (take_while notquote s1)
  | [] => false
  end.

(** [double_comma_site] as a test. *)
Definition double_commab (s : text) : bool :=
  match s with
  | c :: s1 =>
      char_eqb c COMMA &&
      match drop_while isspace s1 with
      | d :: s2 =>
          char_eqb d COMMA &&
          match drop_while isspace s2 with
          | e :: _ => char_eqb e RBRACE
          | [] => false
          end
      | [] => false
      end
  | [] => false
  end.

(** A key that runs over a line feed and holds a closing brace at the end
    of its first line; what follows its closing quote reads as a colon
    and an opening brace. *)
Definition key_over_lines : text :=
  join [LF] [closing 1;
             indent 1 ++ QUOTE :: text_of_string "a }";
             indent 1 ++ QUOTE :: text_of_string ": {"
               ++ QUOTE :: text_of_string ": {"].

(** Two commas before a closing brace. *)
Definition two_commas : text := [COMMA; COMMA; RBRACE].

(** * Lemmas *)

(** ** Runs of characters *)

Lemma take_drop_while p s : take_while p s ++ drop_while p s = s.
Proof.
  induction s as [|c s IH]; simpl; [reflexivity|].
  destruct (p c); simpl; congruence.
Qed.

Lemma all_take_while p s : all p (take_while p s).
Proof.
  unfold all. induction s as [|c s IH]; simpl; [reflexivity|].
  destruct (p c) eqn:E; simpl; [rewrite E|]; auto.
Qed.

Lemma all_app p s1 s2 : all p (s1 ++ s2) <-> all p s1 /\ all p s2.
Proof. unfold all. rewrite forallb_app, andb_true_iff. tauto. Qed.

Lemma all_cons p c s : all p (c :: s) <-> p c = true /\ all p s.
Proof. unfold all. simpl. rewrite andb_true_iff. tauto. Qed.

(** A run followed by a character outside the class is the whole run. *)
Lemma drop_while_app p ws s :
  all p ws -> drop_while p (ws ++ s) = drop_while p s.
Proof.
  induction ws as [|c ws IH]; simpl; intros H; [reflexivity|].
  apply all_cons in H as [-> H]. auto.
Qed.

Lemma take_while_app p ws s :
  all p ws -> take_while p (ws ++ s) = ws ++ take_while p s.
Proof.
  induction ws as [|c ws IH]; simpl; intros H; [reflexivity|].
  apply all_cons in H as [-> H]. f_equal. auto.
Qed.

Lemma take_while_stop p c s : p c = false -> take_while p (c :: s) = [].
Proof. simpl. now intros ->. Qed.

Lemma drop_while_length p s : length (drop_while p s) <= length s.
Proof.
  induction s as [|c s IH]; simpl; [lia|]. destruct (p c); simpl; lia.
Qed.

(** ** The matcher on the scripts' patterns *)

(** When what follows a greedy run cannot start with a character of the
    run, coming back to a shorter run never helps: the run is taken whole. *)
Lemma rep_det p k :
  (forall c s', p c = true -> k (c :: s') = None) ->
  forall s, rep p s k = k (drop_while p s).
Proof.
  intros Hk. induction s as [|c s IH]; simpl; [reflexivity|].
  destruct (p c) eqn:E; [|reflexivity].
  rewrite IH. destruct (k (drop_while p s)); [reflexivity|]. now apply Hk.
Qed.

Lemma isspace_QUOTE : isspace QUOTE = false. Proof. reflexivity. Qed.

Lemma char_eqb_eq a b : char_eqb a b = true <-> a = b.
Proof. apply N.eqb_eq. Qed.

Lemma char_eqb_neq a b : char_eqb a b = false <-> a <> b.
Proof. apply N.eqb_neq. Qed.

Lemma char_eqb_refl a : char_eqb a a = true.
Proof. apply N.eqb_refl. Qed.

Lemma exec_lit d s caps k :
  exec (One (Lit d)) s caps k =
  match eat d s with Some s' => k s' caps | None => None end.
Proof. destruct s as [|c s]; simpl; [reflexivity|]. now destruct (char_eqb c d). Qed.

Lemma refuses_lit d p : p d = false -> refuses (One (Lit d)) p.
Proof.
  intros Hd c s caps k Hc. simpl. destruct (char_eqb c d) eqn:E; [|reflexivity].
  apply char_eqb_eq in E. congruence.
Qed.

Lemma refuses_seq r1 r2 p : refuses r1 p -> refuses (Seq r1 r2) p.
Proof. intros H c s caps k Hc. simpl. now apply H. Qed.

Lemma exec_seq_lit d r s caps k :
  exec (Seq (One (Lit d)) r) s caps k =
  match eat d s with Some s' => exec r s' caps k | None => None end.
Proof. destruct s as [|c s]; simpl; [reflexivity|]. now destruct (char_eqb c d). Qed.

Lemma exec_seq_star cs r s caps k :
  refuses r (cset_match cs) ->
  exec (Seq (Star cs) r) s caps k = exec r (drop_while (cset_match cs) s) caps k.
Proof.
  intros H. cbn [exec].
  apply (rep_det (cset_match cs) (fun s' => exec r s' caps k)).
  intros c s' Hc. now apply H.
Qed.

Lemma exec_seq_plus cs r s caps k :
  refuses r (cset_match cs) ->
  exec (Seq (Plus cs) r) s caps k =
  match eat_run (cset_match cs) s with
  | Some s' => exec r s' caps k
  | None => None
  end.
Proof.
  intros H. cbn [exec]. destruct s as [|c s]; simpl; [reflexivity|].
  destruct (cset_match cs c); [|reflexivity].
  apply (rep_det (cset_match cs) (fun s' => exec r s' caps k)).
  intros d s' Hd. now apply H.
Qed.

Lemma cset_noneof_quote c : cset_match (NoneOf [QUOTE]) c = notquote c.
Proof. unfold notquote. simpl. now rewrite orb_false_r. Qed.

Lemma eat_run_ext p q s : (forall c, p c = q c) -> eat_run p s = eat_run q s.
Proof.
  intros H. destruct s as [|c s]; simpl; [reflexivity|]. rewrite H.
  destruct (q c); [|reflexivity]. f_equal.
  induction s as [|d s IH]; simpl; [reflexivity|]. rewrite H, IH. reflexivity.
Qed.

Lemma exec_key_open s caps k :
  exec (seq_of key_open_items) s caps k =
  match key_open s with Some rest => k rest caps | None => None end.
Proof.
  unfold key_open, key_open_items. cbn [seq_of].
  rewrite exec_seq_lit. destruct (eat QUOTE s) as [s1|]; [|reflexivity].
  cbn [andthen].
  rewrite exec_seq_plus
    by (apply refuses_seq, refuses_lit; reflexivity).
  rewrite (eat_run_ext _ notquote s1 cset_noneof_quote).
  destruct (eat_run notquote s1) as [s2|]; [|reflexivity].
  cbn [andthen]. rewrite exec_seq_lit.
  destruct (eat QUOTE s2) as [s3|]; [|reflexivity].
  cbn [andthen].
  rewrite exec_seq_star by (apply refuses_seq, refuses_lit; reflexivity).
  change (cset_match Space) with isspace. rewrite exec_seq_lit.
  destruct (eat COLON (drop_while isspace s3)) as [s4|]; [|reflexivity].
  cbn [andthen].
  rewrite exec_seq_star by (apply refuses_lit; reflexivity).
  change (cset_match Space) with isspace. apply exec_lit.
Qed.

Lemma re_match_key_open s :
  re_match pat_key_open s =
  match key_open (drop_while isspace s) with
  | Some rest => Some ([], rest)
  | None => None
  end.
Proof.
  unfold re_match, pat_key_open.
  change (seq_of (Star Space :: key_open_items))
    with (Seq (Star Space) (seq_of key_open_items)).
  rewrite exec_seq_star.
  - apply exec_key_open.
  - apply refuses_seq, refuses_lit. reflexivity.
Qed.

Lemma re_match_trailing_comma s :
  re_match pat_trailing_comma s =
  match eat COMMA s with
  | Some s1 =>
      match eat RBRACE (drop_while isspace s1) with
      | Some rest => Some ([(1, matched s1 rest)], rest)
      | None => None
      end
  | None => None
  end.
Proof.
  unfold re_match, pat_trailing_comma. rewrite exec_seq_lit.
  destruct (eat COMMA s) as [s1|]; [|reflexivity].
  cbn [exec]. 
  rewrite (rep_det isspace).
  - change (cset_match Space) with isspace. destruct (drop_while isspace s1) as [|c s2]; [reflexivity|].
    simpl. destruct (char_eqb c RBRACE); reflexivity.
  - intros c s' Hc. simpl. destruct (char_eqb c RBRACE) eqn:E; [|reflexivity].
    apply char_eqb_eq in E. subst. discriminate.
Qed.

Lemma re_match_brace_key s :
  re_match pat_brace_key s =
  match brace_end s with
  | Some s1 =>
      match eat LF s1 with
      | Some s2 =>
          match key_line s2 with
          | Some rest => Some ([(2, matched s2 rest); (1, matched s s1)], rest)
          | None => None
          end
      | None => None
      end
  | None => None
  end.
Proof.
  unfold re_match, pat_brace_key, brace_end, key_line.
  change (seq_of [Group 1 ?a; ?b; Group 2 (seq_of (?c :: ?d))])
    with (Seq (Group 1 a) (Seq b (Group 2 (Seq c (seq_of d))))).
  change (exec (Seq (Group 1 ?a) ?b) s [] ?k)
    with (exec a s [] (fun s' caps' => exec b s' ((1, matched s s') :: caps') k)).
  rewrite exec_seq_plus by (apply refuses_lit; reflexivity).
  change (cset_match Space) with isspace.
  destruct (eat_run isspace s) as [s0|]; [|reflexivity]. cbn [andthen].
  rewrite exec_lit. destruct (eat RBRACE s0) as [s1|]; [|reflexivity].
  rewrite exec_seq_lit. destruct (eat LF s1) as [s2|]; [|reflexivity].
  change (exec (Group 2 ?a) s2 ?c ?k)
    with (exec a s2 c (fun s' caps' => k s' ((2, matched s2 s') :: caps'))).
  rewrite exec_seq_plus by (apply refuses_seq, refuses_lit; reflexivity).
  change (cset_match Space) with isspace.
  destruct (eat_run isspace s2) as [s3|]; [|reflexivity]. cbn [andthen].
  rewrite exec_key_open. reflexivity.
Qed.

(** ** What the patterns match *)

Lemma stops_drop_while p s : stops p (drop_while p s).
Proof.
  induction s as [|c s IH]; simpl; [exact I|].
  destruct (p c) eqn:E; [exact IH|exact E].
Qed.

Lemma drop_while_stops p s : stops p s -> drop_while p s = s.
Proof. destruct s as [|c s]; simpl; [reflexivity|]. now intros ->. Qed.

Lemma drop_while_all_stops p ws s :
  all p ws -> stops p s -> drop_while p (ws ++ s) = s.
Proof. intros Hw Hs. rewrite drop_while_app by exact Hw. now apply drop_while_stops. Qed.

Lemma matched_app (m rest : text) : matched (m ++ rest) rest = m.
Proof.
  unfold matched. rewrite length_app.
  replace (length m + length rest - length rest) with (length m) by lia.
  rewrite firstn_app, firstn_all, Nat.sub_diag. simpl. apply app_nil_r.
Qed.

Lemma eat_spec c s s' : eat c s = Some s' <-> s = c :: s'.
Proof.
  destruct s as [|d s]; simpl; [split; discriminate|].
  destruct (char_eqb d c) eqn:E.
  - apply char_eqb_eq in E. subst. split; intros [= ->]; reflexivity.
  - apply char_eqb_neq in E. split; [discriminate|]. intros [= -> ->]. now elim E.
Qed.

Lemma eat_cons c s : eat c (c :: s) = Some s.
Proof. now apply eat_spec. Qed.

Lemma eat_run_spec p s s' :
  eat_run p s = Some s' <->
  exists ws, ws <> [] /\ all p ws /\ stops p s' /\ s = ws ++ s'.
Proof.
  split.
  - destruct s as [|c s]; simpl; [discriminate|].
    destruct (p c) eqn:E; [|discriminate]. intros [= <-].
    exists (c :: take_while p s). repeat split.
    + discriminate.
    + apply all_cons. split; [exact E|apply all_take_while].
    + apply stops_drop_while.
    + simpl. now rewrite take_drop_while.
  - intros (ws & Hne & Hall & Hst & ->).
    destruct ws as [|c ws]; [congruence|]. simpl.
    apply all_cons in Hall as [-> Hall]. f_equal.
    now apply drop_while_all_stops.
Qed.

Lemma app_cons_assoc {A} (l : list A) a l' r : (l ++ a :: l') ++ r = l ++ a :: (l' ++ r).
Proof. now rewrite <- app_assoc. Qed.

Lemma key_open_spec s rest :
  key_open s = Some rest <-> exists o, key_opening o /\ s = o ++ rest.
Proof.
  unfold key_open. split.
  - destruct (eat QUOTE s) as [s1|] eqn:E1; [|discriminate]. cbn [andthen].
    destruct (eat_run notquote s1) as [s2|] eqn:E2; [|discriminate]. cbn [andthen].
    destruct (eat QUOTE s2) as [s3|] eqn:E3; [|discriminate]. cbn [andthen].
    destruct (eat COLON (drop_while isspace s3)) as [s4|] eqn:E4; [|discriminate].
    cbn [andthen]. intros E5.
    apply eat_spec in E1, E3, E4, E5.
    apply eat_run_spec in E2 as (key & Hne & Hkey & _ & E2).
    exists (QUOTE :: key ++ QUOTE :: take_while isspace s3 ++ COLON
                  :: take_while isspace s4 ++ [LBRACE]).
    split.
    + exists key, (take_while isspace s3), (take_while isspace s4).
      repeat split; auto using all_take_while.
    + subst s s1 s2. simpl. f_equal. rewrite app_cons_assoc. f_equal. f_equal.
      rewrite app_cons_assoc. rewrite <- (take_drop_while isspace s3) at 1.
      rewrite E4. f_equal. f_equal.
      rewrite <- (take_drop_while isspace s4) at 1. rewrite E5.
      now rewrite <- app_assoc.
  - intros (o & (key & ws1 & ws2 & Hne & Hkey & H1 & H2 & ->) & ->).
    cbn [app]. rewrite eat_cons. cbn [andthen].
    rewrite app_cons_assoc.
    replace (eat_run notquote (key ++ QUOTE :: (ws1 ++ COLON :: ws2 ++ [LBRACE]) ++ rest))
      with (Some (QUOTE :: (ws1 ++ COLON :: ws2 ++ [LBRACE]) ++ rest)).
    2:{ symmetry. apply eat_run_spec. exists key. repeat split; auto. }
    cbn [andthen]. rewrite eat_cons. cbn [andthen].
    rewrite app_cons_assoc, drop_while_all_stops by (auto; reflexivity).
    rewrite eat_cons. cbn [andthen].
    rewrite <- app_assoc, drop_while_all_stops by (auto; reflexivity).
    apply eat_cons.
Qed.

(** *** The comma-adding pattern *)

Lemma key_opening_head o : key_opening o -> exists o', o = QUOTE :: o'.
Proof. intros (key & ws1 & ws2 & _ & _ & _ & _ & ->). eauto. Qed.

Lemma brace_end_spec s s1 :
  brace_end s = Some s1 <-> exists g, brace_end_text g /\ s = g ++ s1.
Proof.
  unfold brace_end. split.
  - destruct (eat_run isspace s) as [s0|] eqn:E; [|discriminate]. cbn [andthen].
    intros E1. apply eat_spec in E1.
    apply eat_run_spec in E as (ws & Hne & Hws & _ & ->). subst s0.
    exists (ws ++ [RBRACE]). split; [now exists ws|].
    now rewrite <- app_assoc.
  - intros (g & (ws & Hne & Hws & ->) & ->). rewrite <- app_assoc.
    replace (eat_run isspace (ws ++ [RBRACE] ++ s1)) with (Some (RBRACE :: s1)).
    + apply eat_cons.
    + symmetry. apply eat_run_spec. exists ws. repeat split; auto.
Qed.

Lemma key_line_spec s rest :
  key_line s = Some rest <-> exists g, key_line_text g /\ s = g ++ rest.
Proof.
  unfold key_line. split.
  - destruct (eat_run isspace s) as [s0|] eqn:E; [|discriminate]. cbn [andthen].
    intros E1. apply key_open_spec in E1 as (o & Ho & ->).
    apply eat_run_spec in E as (ws & Hne & Hws & _ & ->).
    exists (ws ++ o). split; [now exists ws, o|]. now rewrite <- app_assoc.
  - intros (g & (ws & o & Hne & Hws & Ho & ->) & ->). rewrite <- app_assoc.
    replace (eat_run isspace (ws ++ o ++ rest)) with (Some (o ++ rest)).
    + cbn [andthen]. apply key_open_spec. eauto.
    + symmetry. apply eat_run_spec. exists ws. repeat split; auto.
      destruct (key_opening_head Ho) as (o' & ->). reflexivity.
Qed.

Lemma brace_key_spec s g1 g2 rest :
  brace_key s = Some (g1, g2, rest) <->
  brace_end_text g1 /\ key_line_text g2 /\ s = g1 ++ LF :: g2 ++ rest.
Proof.
  unfold brace_key. split.
  - destruct (brace_end s) as [s1|] eqn:E1; [|discriminate].
    destruct (eat LF s1) as [s2|] eqn:E2; [|discriminate].
    destruct (key_line s2) as [r|] eqn:E3; [|discriminate].
    apply brace_end_spec in E1 as (h1 & H1 & ->).
    apply eat_spec in E2 as ->.
    apply key_line_spec in E3 as (h2 & H2 & ->).
    rewrite !matched_app. intros [= <- <- <-]. auto.
  - intros (H1 & H2 & ->).
    replace (brace_end (g1 ++ LF :: g2 ++ rest)) with (Some (LF :: g2 ++ rest))
      by (symmetry; apply brace_end_spec; eauto).
    rewrite eat_cons.
    replace (key_line (g2 ++ rest)) with (Some rest)
      by (symmetry; apply key_line_spec; eauto).
    now rewrite !matched_app.
Qed.

Lemma re_match_brace_key' s :
  re_match pat_brace_key s =
  match brace_key s with
  | Some (g1, g2, rest) => Some ([(2, g2); (1, g1)], rest)
  | None => None
  end.
Proof.
  rewrite re_match_brace_key. unfold brace_key.
  destruct (brace_end s) as [s1|]; [|reflexivity].
  destruct (eat LF s1) as [s2|]; [|reflexivity].
  now destruct (key_line s2).
Qed.

(** *** The trailing-comma pattern *)

Lemma trailing_comma_spec s g rest :
  trailing_comma s = Some (g, rest) <->
  brace_text g /\ s = COMMA :: g ++ rest.
Proof.
  unfold trailing_comma. split.
  - destruct (eat COMMA s) as [s1|] eqn:E1; [|discriminate].
    destruct (eat RBRACE (drop_while isspace s1)) as [r|] eqn:E2; [|discriminate].
    apply eat_spec in E1 as ->. apply eat_spec in E2.
    assert (exists m, brace_text m /\ s1 = m ++ r) as (m & Hm & ->).
    { exists (take_while isspace s1 ++ [RBRACE]). split.
      - exists (take_while isspace s1). split; [apply all_take_while|reflexivity].
      - rewrite <- (take_drop_while isspace s1) at 1. rewrite E2.
        now rewrite <- app_assoc. }
    rewrite matched_app. intros [= <- <-]. auto.
  - intros ((ws & Hws & ->) & ->). rewrite eat_cons, <- app_assoc.
    rewrite drop_while_all_stops by (auto; reflexivity).
    cbn [app]. rewrite eat_cons.
    replace (ws ++ RBRACE :: rest) with ((ws ++ [RBRACE]) ++ rest)
      by now rewrite <- app_assoc.
    now rewrite matched_app.
Qed.

Lemma re_match_trailing_comma' s :
  re_match pat_trailing_comma s =
  match trailing_comma s with
  | Some (g, rest) => Some ([(1, g)], rest)
  | None => None
  end.
Proof.
  rewrite re_match_trailing_comma. unfold trailing_comma.
  destruct (eat COMMA s) as [s1|]; [|reflexivity].
  now destruct (eat RBRACE (drop_while isspace s1)).
Qed.

(** ** Substitution, one step at a time *)

Lemma sub_from_skipn r repl n s :
  sub_from r repl n s = re_sub r repl (skipn n s).
Proof.
  unfold re_sub. revert n. induction s as [|c s IH]; intros [|n]; simpl; auto.
Qed.

Lemma re_sub_skip r repl c s :
  re_match r (c :: s) = None ->
  re_sub r repl (c :: s) = c :: re_sub r repl s.
Proof. unfold re_sub. simpl. now intros ->. Qed.

Lemma re_sub_match r repl c m rest caps :
  re_match r (c :: m ++ rest) = Some (caps, rest) ->
  re_sub r repl (c :: m ++ rest) = repl caps ++ re_sub r repl rest.
Proof.
  unfold re_sub at 1. simpl. intros ->. rewrite sub_from_skipn. do 2 f_equal.
  rewrite length_app. replace (length m + length rest - length rest) with (length m) by lia.
  rewrite skipn_app, skipn_all, Nat.sub_diag. reflexivity.
Qed.

Lemma insert_commas_skip c s :
  brace_key (c :: s) = None ->
  insert_commas (c :: s) = c :: insert_commas s.
Proof.
  intros H. apply re_sub_skip. rewrite re_match_brace_key'. now rewrite H.
Qed.

Lemma brace_end_text_cons g : brace_end_text g -> exists c g', g = c :: g'.
Proof. intros ([|c ws] & Hne & _ & ->); [congruence|]. simpl. eauto. Qed.

Lemma insert_commas_site s g1 g2 rest :
  brace_key s = Some (g1, g2, rest) ->
  insert_commas s = g1 ++ COMMA :: LF :: g2 ++ insert_commas rest.
Proof.
  intros H. pose proof H as H'. apply brace_key_spec in H' as (H1 & _ & ->).
  destruct (brace_end_text_cons H1) as (c & g' & ->).
  unfold insert_commas.
  replace ((c :: g') ++ LF :: g2 ++ rest) with (c :: (g' ++ LF :: g2) ++ rest) in *
    by (simpl; now rewrite <- app_assoc).
  rewrite re_sub_match with (caps := [(2, g2); (1, c :: g')]).
  - unfold comma_between. simpl. now rewrite <- !app_assoc.
  - rewrite re_match_brace_key'. now rewrite H.
Qed.

Lemma remove_commas_skip c s :
  trailing_comma (c :: s) = None ->
  remove_commas (c :: s) = c :: remove_commas s.
Proof.
  intros H. apply re_sub_skip. rewrite re_match_trailing_comma'. now rewrite H.
Qed.

Lemma remove_commas_site s g rest :
  trailing_comma s = Some (g, rest) ->
  remove_commas s = g ++ remove_commas rest.
Proof.
  intros H. pose proof H as H'. apply trailing_comma_spec in H' as (_ & ->).
  unfold remove_commas. rewrite re_sub_match with (caps := [(1, g)]).
  - reflexivity.
  - rewrite re_match_trailing_comma'. now rewrite H.
Qed.

(** Induction along the scan of each substitution. *)
Lemma insert_commas_ind (P : text -> text -> Prop) :
  P [] [] ->
  (forall c s, brace_key (c :: s) = None ->
               P s (insert_commas s) -> P (c :: s) (c :: insert_commas s)) ->
  (forall s g1 g2 rest, brace_key s = Some (g1, g2, rest) ->
               P rest (insert_commas rest) ->
               P s (g1 ++ COMMA :: LF :: g2 ++ insert_commas rest)) ->
  forall s, P s (insert_commas s).
Proof.
  intros Hnil Hskip Hsite s.
  remember (length s) as n eqn:Hn. revert s Hn.
  induction n as [n IH] using lt_wf_ind. intros s Hn.
  destruct s as [|c s]; [exact Hnil|].
  destruct (brace_key (c :: s)) as [[[g1 g2] rest]|] eqn:E.
  - rewrite (insert_commas_site _ E). apply Hsite; [exact E|].
    apply brace_key_spec in E as (H1 & _ & E).
    apply (IH (length rest)); [|reflexivity].
    rewrite Hn, E, !length_app. simpl. rewrite length_app. lia.
  - rewrite insert_commas_skip by exact E. apply Hskip; [exact E|].
    apply (IH (length s)); [|reflexivity]. subst n. simpl. lia.
Qed.

Lemma remove_commas_ind (P : text -> text -> Prop) :
  P [] [] ->
  (forall c s, trailing_comma (c :: s) = None ->
               P s (remove_commas s) -> P (c :: s) (c :: remove_commas s)) ->
  (forall s g rest, trailing_comma s = Some (g, rest) ->
               P rest (remove_commas rest) ->
               P s (g ++ remove_commas rest)) ->
  forall s, P s (remove_commas s).
Proof.
  intros Hnil Hskip Hsite s.
  remember (length s) as n eqn:Hn. revert s Hn.
  induction n as [n IH] using lt_wf_ind. intros s Hn.
  destruct s as [|c s]; [exact Hnil|].
  destruct (trailing_comma (c :: s)) as [[g rest]|] eqn:E.
  - rewrite (remove_commas_site _ E). apply Hsite; [exact E|].
    apply trailing_comma_spec in E as (_ & E).
    apply (IH (length rest)); [|reflexivity].
    rewrite Hn, E. simpl. rewrite length_app. lia.
  - rewrite remove_commas_skip by exact E. apply Hskip; [exact E|].
    apply (IH (length s)); [|reflexivity]. subst n. simpl. lia.
Qed.

(** ** The line loop as a function on the list of lines *)

Lemma skipn_nth_error {A} (l : list A) i a :
  nth_error l i = Some a -> skipn i l = a :: skipn (S i) l.
Proof.
  revert i. induction l as [|b l IH]; intros [|i]; simpl; try discriminate.
  - now intros [= ->].
  - apply IH.
Qed.

Lemma needs_comma_ok lines i line :
  nth_error lines i = Some line ->
  needs_comma lines i line =
  Ok (closes line && match skipn (S i) lines with
                     | next :: _ => opens next
                     | [] => false
                     end).
Proof.
  intros Hi. unfold needs_comma, closes.
  destruct (endswith (strip line) [RBRACE]); [|reflexivity].
  rewrite andb_true_l.
  destruct (i + 1 <? length lines) eqn:E.
  - apply Nat.ltb_lt in E. unfold getitem.
    destruct (nth_error lines (i + 1)) as [next|] eqn:En.
    + replace (i + 1) with (S i) in En by lia.
      change (match lines with [] => [] | _ :: l => skipn i l end)
        with (skipn (S i) lines).
      now rewrite (skipn_nth_error _ _ En).
    + apply nth_error_None in En. lia.
  - apply Nat.ltb_ge in E. rewrite skipn_all2 by lia. reflexivity.
Qed.

Lemma line_loop_ok fuel : forall lines i fixed_lines,
  length lines <= i + fuel ->
  line_loop fuel lines i fixed_lines =
  Ok (fixed_lines ++ fix_lines (skipn i lines)).
Proof.
  induction fuel as [|fuel IH]; intros lines i acc Hf.
  - simpl. replace (i <? length lines) with false
      by (symmetry; apply Nat.ltb_ge; lia).
    rewrite skipn_all2 by lia. simpl. now rewrite app_nil_r.
  - simpl. destruct (i <? length lines) eqn:E.
    + apply Nat.ltb_lt in E. unfold getitem at 1.
      destruct (nth_error lines i) as [line|] eqn:Hi.
      2:{ apply nth_error_None in Hi. lia. }
      cbn [bind]. rewrite (needs_comma_ok _ _ Hi). cbn [bind].
      rewrite IH by lia. rewrite (skipn_nth_error _ _ Hi).
      replace (i + 1) with (S i) by lia. simpl.
      rewrite <- app_assoc. reflexivity.
    + apply Nat.ltb_ge in E. rewrite skipn_all2 by lia. simpl.
      now rewrite app_nil_r.
Qed.

Lemma fix_json_comprehensive_eq content :
  fix_json_comprehensive content =
  Ok (insert_commas (remove_commas (append_commas content))).
Proof.
  unfold fix_json_comprehensive. rewrite line_loop_ok by lia. reflexivity.
Qed.

(** ** The tests of the line loop, in words *)

Lemma lstrip_drop_while s : lstrip s = drop_while isspace s.
Proof. induction s as [|c s IH]; simpl; [reflexivity|]. now rewrite IH. Qed.

Lemma drop_while_mid p a c b :
  p c = false -> drop_while p (a ++ c :: b) = drop_while p a ++ c :: b.
Proof.
  intros Hc. induction a as [|d a IH]; simpl; [now rewrite Hc|].
  now destruct (p d).
Qed.

Lemma all_rev p s : all p s -> all p (rev s).
Proof.
  unfold all. rewrite !forallb_forall. intros H x Hx. apply H.
  now apply in_rev.
Qed.

Lemma closes_spec line : closes line = true <-> closing_brace_line line.
Proof.
  unfold closes, endswith, strip, rstrip. rewrite rev_involutive, !lstrip_drop_while.
  simpl rev. split.
  - destruct (drop_while isspace (rev (drop_while isspace line)))
      as [|c x] eqn:E; simpl; [discriminate|].
    destruct (char_eqb c RBRACE) eqn:Hc; [intros _|discriminate].
    apply char_eqb_eq in Hc. subst c.
    pose proof (take_drop_while isspace (rev (drop_while isspace line))) as H.
    rewrite E in H. apply (f_equal (@rev char)) in H.
    rewrite rev_involutive, rev_app_distr in H. simpl in H.
    rewrite <- app_assoc in H. simpl in H.
    exists (take_while isspace line ++ rev x),
      (rev (take_while isspace (rev (drop_while isspace line)))).
    split; [apply all_rev, all_take_while|].
    rewrite <- app_assoc, H. apply eq_sym, take_drop_while.
  - intros (pre & ws & Hws & ->).
    rewrite drop_while_mid by reflexivity.
    rewrite rev_app_distr. simpl. rewrite <- app_assoc. simpl.
    rewrite drop_while_all_stops; [|now apply all_rev|reflexivity].
    reflexivity.
Qed.

Lemma opens_spec line : opens line = true <-> key_opening_line line.
Proof.
  unfold opens. rewrite re_match_key_open. split.
  - destruct (key_open (drop_while isspace line)) as [rest|] eqn:E;
      [|discriminate]. intros _.
    apply key_open_spec in E as (o & Ho & E).
    exists (take_while isspace line), o, rest. split; [apply all_take_while|].
    split; [exact Ho|]. rewrite <- E. apply eq_sym, take_drop_while.
  - intros (ws & o & rest & Hws & Ho & ->).
    destruct (key_opening_head Ho) as (o' & Eo).
    rewrite drop_while_all_stops; [|exact Hws|now rewrite Eo].
    replace (key_open (o ++ rest)) with (Some rest); [reflexivity|].
    symmetry. apply key_open_spec. eauto.
Qed.

Lemma closes_false line : closes line = false <-> ~ closing_brace_line line.
Proof. rewrite <- closes_spec. now destruct (closes line). Qed.

Lemma opens_false line : opens line = false <-> ~ key_opening_line line.
Proof. rewrite <- opens_spec. now destruct (opens line). Qed.

Lemma fix_lines_length lines : length (fix_lines lines) = length lines.
Proof. induction lines as [|l ls IH]; simpl; congruence. Qed.

Lemma fix_lines_nth lines : forall i line,
  nth_error lines i = Some line ->
  nth_error (fix_lines lines) i = Some (fix_line line (skipn (S i) lines)).
Proof.
  induction lines as [|l ls IH]; intros [|i] line; simpl; try discriminate.
  - now intros [= ->].
  - intros H. now rewrite (IH _ _ H).
Qed.

(** ** Where the passes find something to repair *)

Lemma brace_key_site_iff s : brace_key_site s <-> brace_key s <> None.
Proof.
  split.
  - intros (g1 & g2 & rest & H1 & H2 & E).
    assert (H : brace_key s = Some (g1, g2, rest)) by now apply brace_key_spec.
    congruence.
  - destruct (brace_key s) as [[[g1 g2] rest]|] eqn:E; [|congruence].
    intros _. apply brace_key_spec in E as (H1 & H2 & E).
    now exists g1, g2, rest.
Qed.

Lemma trailing_comma_site_iff s :
  trailing_comma_site s <-> trailing_comma s <> None.
Proof.
  split.
  - intros (g & rest & H1 & E).
    assert (H : trailing_comma s = Some (g, rest)) by now apply trailing_comma_spec.
    congruence.
  - destruct (trailing_comma s) as [[g rest]|] eqn:E; [|congruence].
    intros _. apply trailing_comma_spec in E as (H1 & E).
    now exists g, rest.
Qed.

Lemma occurs_here (P : text -> Prop) t : P t -> occurs P t.
Proof. intros H. now exists [], t. Qed.

Lemma occurs_cons (P : text -> Prop) c t : occurs P t -> occurs P (c :: t).
Proof. intros (pre & s & -> & H). now exists (c :: pre), s. Qed.

Lemma occurs_app (P : text -> Prop) m t : occurs P t -> occurs P (m ++ t).
Proof.
  intros (pre & s & -> & H). exists (m ++ pre), s.
  now rewrite <- app_assoc.
Qed.

Lemma occurs_cons_inv (P : text -> Prop) c t :
  occurs P (c :: t) -> P (c :: t) \/ occurs P t.
Proof.
  intros ([|d pre] & s & E & H); simpl in E.
  - left. now rewrite E.
  - right. injection E as -> ->. now exists pre, s.
Qed.

(** ** Texts a pass leaves alone *)

Lemma insert_commas_noop t :
  ~ occurs brace_key_site t -> insert_commas t = t.
Proof.
  apply (insert_commas_ind
           (fun t out => ~ occurs brace_key_site t -> out = t)).
  - reflexivity.
  - intros c s _ IH H. f_equal. apply IH. intros Ho. apply H.
    now apply occurs_cons.
  - intros s g1 g2 rest E _ H. exfalso. apply H, occurs_here.
    apply brace_key_site_iff. congruence.
Qed.

Lemma remove_commas_noop t :
  ~ occurs trailing_comma_site t -> remove_commas t = t.
Proof.
  apply (remove_commas_ind
           (fun t out => ~ occurs trailing_comma_site t -> out = t)).
  - reflexivity.
  - intros c s _ IH H. f_equal. apply IH. intros Ho. apply H.
    now apply occurs_cons.
  - intros s g rest E _ H. exfalso. apply H, occurs_here.
    apply trailing_comma_site_iff. congruence.
Qed.

Lemma split_not_nil sep s : split sep s <> [].
Proof.
  destruct s as [|c s]; simpl; [discriminate|].
  destruct (char_eqb c sep); [discriminate|].
  destruct (split sep s); discriminate.
Qed.

Lemma join_cons sep l ls :
  ls <> [] -> join sep (l :: ls) = l ++ sep ++ join sep ls.
Proof. destruct ls; [congruence|reflexivity]. Qed.

(** [join] undoes [split]. *)
Lemma join_split sep s : join [sep] (split sep s) = s.
Proof.
  induction s as [|c s IH]; simpl; [reflexivity|].
  destruct (char_eqb c sep) eqn:E.
  - apply char_eqb_eq in E. subst c.
    rewrite join_cons by apply split_not_nil. simpl. now rewrite IH.
  - destruct (split sep s) as [|l ls] eqn:Es.
    + now apply split_not_nil in Es.
    + rewrite <- IH. destruct ls; reflexivity.
Qed.

Lemma fix_lines_noop lines : ~ adjacent_site lines -> fix_lines lines = lines.
Proof.
  induction lines as [|l ls IH]; intros H; simpl; [reflexivity|]. f_equal.
  - unfold fix_line. destruct (closes l) eqn:Ec; [|reflexivity].
    destruct ls as [|next ls']; [reflexivity|].
    destruct (opens next) eqn:Eo; [|reflexivity].
    exfalso. apply H. exists [], l, next, ls'. split; [reflexivity|].
    split; [now apply closes_spec|now apply opens_spec].
  - apply IH. intros (pre & l1 & l2 & post & -> & H1 & H2).
    apply H. now exists (l :: pre), l1, l2, post.
Qed.

Lemma append_commas_noop t :
  ~ adjacent_site (split LF t) -> append_commas t = t.
Proof.
  intros H. unfold append_commas. rewrite fix_lines_noop by exact H.
  apply join_split.
Qed.

Lemma comprehensive_noop t :
  ~ adjacent_site (split LF t) ->
  ~ occurs trailing_comma_site t ->
  ~ occurs brace_key_site t ->
  fix_json_comprehensive t = Ok t.
Proof.
  intros HA HT HS. rewrite fix_json_comprehensive_eq.
  rewrite append_commas_noop by exact HA.
  rewrite remove_commas_noop by exact HT.
  now rewrite insert_commas_noop by exact HS.
Qed.

Lemma any_suffix_spec (P : text -> Prop) f :
  (forall s, f s = true <-> P s) ->
  forall t, any_suffix f t = true <-> occurs P t.
Proof.
  intros Hf. induction t as [|c t IH].
  - simpl. rewrite orb_false_r, Hf. split; [apply occurs_here|].
    intros ([|d pre] & s & E & H); [now rewrite E|discriminate].
  - simpl. rewrite orb_true_iff, Hf, IH. split.
    + intros [H|H]; [now apply occurs_here|now apply occurs_cons].
    + apply occurs_cons_inv.
Qed.

Lemma is_some_true {A} (o : option A) : is_some o = true <-> o <> None.
Proof. destruct o; simpl; split; congruence. Qed.

Lemma has_brace_key_site t :
  any_suffix (fun s => is_some (brace_key s)) t = true <->
  occurs brace_key_site t.
Proof.
  apply any_suffix_spec. intros s. rewrite is_some_true.
  symmetry. apply brace_key_site_iff.
Qed.

Lemma has_trailing_comma_site t :
  any_suffix (fun s => is_some (trailing_comma s)) t = true <->
  occurs trailing_comma_site t.
Proof.
  apply any_suffix_spec. intros s. rewrite is_some_true.
  symmetry. apply trailing_comma_site_iff.
Qed.

Lemma any_adjacent_spec lines :
  any_adjacent lines = true <-> adjacent_site lines.
Proof.
  induction lines as [|l1 ls IH].
  - simpl. split; [discriminate|].
    intros ([|? ?] & ? & ? & ? & E & _); discriminate.
  - destruct ls as [|l2 ls'].
    + simpl. split; [discriminate|].
      intros ([|? [|? ?]] & ? & ? & ? & E & _); discriminate.
    + change (any_adjacent (l1 :: l2 :: ls'))
        with (closes l1 && opens l2 || any_adjacent (l2 :: ls')).
      rewrite orb_true_iff, andb_true_iff, IH, closes_spec, opens_spec.
      split.
      * intros [[H1 H2]|(pre & a & b & post & E & Ha & Hb)].
        -- now exists [], l1, l2, ls'.
        -- exists (l1 :: pre), a, b, post. now rewrite E.
      * intros ([|x pre] & a & b & post & E & Ha & Hb).
        -- injection E as -> -> ->. now left.
        -- injection E as -> E. right. now exists pre, a, b, post.
Qed.

Lemma brace_then_keyb_spec s : brace_then_keyb s = true <-> brace_then_key s.
Proof.
  unfold brace_then_keyb. split.
  - destruct s as [|c s]; [discriminate|].
    rewrite andb_true_iff, char_eqb_eq, is_some_true. intros [-> H].
    destruct (key_open (drop_while isspace s)) as [rest|] eqn:E; [|congruence].
    apply key_open_spec in E as (o & Ho & E).
    exists (take_while isspace s), o, rest. split; [apply all_take_while|].
    split; [exact Ho|]. now rewrite <- E, take_drop_while.
  - intros (ws & o & rest & Hws & Ho & ->).
    destruct (key_opening_head Ho) as (o' & Eo).
    rewrite char_eqb_refl, drop_while_all_stops; [|exact Hws|now rewrite Eo].
    replace (key_open (o ++ rest)) with (Some rest); [reflexivity|].
    symmetry. apply key_open_spec. eauto.
Qed.

Lemma has_brace_then_key t :
  any_suffix brace_then_keyb t = true <-> occurs brace_then_key t.
Proof. apply any_suffix_spec, brace_then_keyb_spec. Qed.

Lemma brace_key_site_brace_then_key t :
  occurs brace_key_site t -> occurs brace_then_key t.
Proof.
  intros (pre & s & -> & g1 & g2 & rest & (ws & _ & _ & ->)
          & (ws2 & o & _ & Hws2 & Ho & ->) & ->).
  exists (pre ++ ws), (RBRACE :: (LF :: ws2) ++ o ++ rest). split.
  - rewrite <- !app_assoc. reflexivity.
  - exists (LF :: ws2), o, rest. split; [|auto].
    apply all_cons. auto.
Qed.

Lemma join_app_two sep pre l1 l2 post :
  exists a b, join sep (pre ++ l1 :: l2 :: post) = a ++ l1 ++ sep ++ l2 ++ b.
Proof.
  induction pre as [|l pre (a & b & IH)].
  - exists []. destruct post as [|l3 post].
    + exists []. simpl. now rewrite app_nil_r.
    + exists (sep ++ join sep (l3 :: post)). reflexivity.
  - exists (l ++ sep ++ a), b. simpl app.
    rewrite join_cons by (now destruct pre). rewrite IH.
    now rewrite <- !app_assoc.
Qed.

Lemma adjacent_site_brace_then_key t :
  adjacent_site (split LF t) -> occurs brace_then_key t.
Proof.
  intros (pre & l1 & l2 & post & E & (p & ws & Hws & ->)
          & (ws2 & o & r & Hws2 & Ho & ->)).
  destruct (join_app_two [LF] pre (p ++ RBRACE :: ws) (ws2 ++ o ++ r) post)
    as (a & b & Hj).
  rewrite <- E, join_split in Hj.
  exists (a ++ p), (RBRACE :: (ws ++ LF :: ws2) ++ o ++ r ++ b). split.
  - rewrite Hj. repeat (rewrite <- app_assoc; simpl). reflexivity.
  - exists (ws ++ LF :: ws2), o, (r ++ b). split; [|auto].
    apply all_app. split; [exact Hws|]. apply all_cons. auto.
Qed.

(** ** The cleanup pass at one comma *)

Lemma trailing_comma_app s g rest x :
  trailing_comma s = Some (g, rest) ->
  trailing_comma (s ++ x) = Some (g, rest ++ x).
Proof.
  intros H. apply trailing_comma_spec in H as (Hg & ->).
  apply trailing_comma_spec. split; [exact Hg|].
  simpl. now rewrite <- app_assoc.
Qed.

Lemma trailing_comma_before_comma s x :
  trailing_comma s = None -> s <> [] ->
  trailing_comma (s ++ COMMA :: x) = None.
Proof.
  intros H Hne.
  destruct (trailing_comma (s ++ COMMA :: x)) as [[g rest]|] eqn:E;
    [|reflexivity].
  exfalso. apply trailing_comma_spec in E as ((ws & Hws & ->) & E).
  destruct s as [|c s]; [congruence|]. simpl in E. injection E as -> E.
  assert (Hn : forall r, s <> (ws ++ [RBRACE]) ++ r).
  { intros r Hr.
    assert (trailing_comma (COMMA :: s) = Some (ws ++ [RBRACE], r))
      by (apply trailing_comma_spec; split; [now exists ws|now rewrite Hr]).
    congruence. }
  clear H Hne. revert s E Hn.
  induction ws as [|w ws IH]; intros s E Hn.
  - destruct s as [|d s]; simpl in E.
    + discriminate.
    + injection E as -> E. now apply (Hn s).
  - apply all_cons in Hws as [Hw Hws]. destruct s as [|d s]; simpl in E.
    + injection E as <- _. discriminate.
    + injection E as -> E. apply (IH Hws s E).
      intros r Hr. apply (Hn r). simpl. now rewrite Hr.
Qed.

Lemma remove_commas_app_comma pre s :
  remove_commas (pre ++ COMMA :: s) =
  remove_commas pre ++ remove_commas (COMMA :: s).
Proof.
  revert s. apply (remove_commas_ind
    (fun pre out => forall s, remove_commas (pre ++ COMMA :: s) =
                              out ++ remove_commas (COMMA :: s))).
  - reflexivity.
  - intros c p E IH s. simpl app.
    rewrite remove_commas_skip.
    + now rewrite IH.
    + apply (@trailing_comma_before_comma (c :: p) s); [exact E|discriminate].
  - intros p g rest E IH s.
    rewrite (@remove_commas_site (p ++ COMMA :: s) g (rest ++ COMMA :: s)).
    + now rewrite IH, app_assoc.
    + now apply trailing_comma_app.
Qed.

(** The cleanup deletes every comma that stands before optional white
    space and a closing brace, and goes on behind the brace. *)
Lemma remove_commas_at_site pre ws post :
  all isspace ws ->
  remove_commas (pre ++ COMMA :: ws ++ RBRACE :: post) =
  remove_commas pre ++ ws ++ RBRACE :: remove_commas post.
Proof.
  intros Hws. rewrite remove_commas_app_comma. f_equal.
  rewrite (@remove_commas_site (COMMA :: ws ++ RBRACE :: post)
             (ws ++ [RBRACE]) post).
  - now rewrite <- app_assoc.
  - apply trailing_comma_spec. split; [now exists ws|].
    now rewrite <- app_assoc.
Qed.

Lemma fix_line_cases lines i line :
  (comma_due lines i line /\
   fix_line line (skipn (S i) lines) = line ++ [COMMA]) \/
  (~ comma_due lines i line /\ fix_line line (skipn (S i) lines) = line).
Proof.
  unfold fix_line, comma_due.
  destruct (closes line) eqn:Ec.
  - apply closes_spec in Ec.
    destruct (nth_error lines (S i)) as [next|] eqn:En.
    + rewrite (skipn_nth_error _ _ En). destruct (opens next) eqn:Eo.
      * left. apply opens_spec in Eo. split; [|reflexivity]. eauto.
      * right. apply opens_false in Eo. split; [|reflexivity].
        intros (_ & next' & [= <-] & H). auto.
    + right. apply nth_error_None in En. rewrite skipn_all2 by lia.
      split; [|reflexivity]. intros (_ & next' & [=] & _).
  - right. apply closes_false in Ec. split; [|reflexivity]. tauto.
Qed.

Lemma fix_lines_last lines : last (fix_lines lines) [] = last lines [].
Proof.
  induction lines as [|l ls IH]; [reflexivity|].
  destruct ls as [|l2 ls'].
  - simpl. unfold fix_line. now rewrite andb_false_r.
  - change (fix_lines (l :: l2 :: ls'))
      with (fix_line l (l2 :: ls') :: fix_line l2 ls' :: fix_lines ls').
    change (last (l :: l2 :: ls') []) with (last (l2 :: ls') []).
    rewrite <- IH. reflexivity.
Qed.

Lemma needs_comma_no_error lines i line :
  needs_comma lines i line <> IndexError.
Proof.
  unfold needs_comma. destruct (endswith (strip line) [RBRACE]); [|discriminate].
  destruct (i + 1 <? length lines) eqn:E; [|discriminate].
  apply Nat.ltb_lt in E. unfold getitem.
  destruct (nth_error lines (i + 1)) eqn:En; [discriminate|].
  apply nth_error_None in En. lia.
Qed.

Lemma needs_comma_last lines line :
  needs_comma lines (length lines - 1) line = Ok false.
Proof.
  unfold needs_comma. destruct (endswith (strip line) [RBRACE]); [|reflexivity].
  replace (length lines - 1 + 1 <? length lines) with false; [reflexivity|].
  symmetry. apply Nat.ltb_ge. lia.
Qed.

(** ** What each pass changes *)

Lemma insert_commas_inserted t : inserted_at_sites t (insert_commas t).
Proof.
  apply (insert_commas_ind inserted_at_sites).
  - constructor.
  - intros c s _ IH. now constructor.
  - intros s g1 g2 rest E IH. apply brace_key_spec in E as (H1 & H2 & ->).
    now constructor.
Qed.

Lemma remove_commas_removed t : removed_before_brace t (remove_commas t).
Proof.
  apply (remove_commas_ind removed_before_brace).
  - constructor.
  - intros c s _ IH. now constructor.
  - intros s g rest E IH. apply trailing_comma_spec in E as (H1 & ->).
    now constructor.
Qed.

Lemma fix_lines_appended lines : appended_to_lines lines (fix_lines lines).
Proof.
  induction lines as [|l ls IH]; [constructor|].
  simpl. unfold fix_line at 1.
  destruct (closes l) eqn:Ec; [|now constructor].
  destruct ls as [|next ls']; [now constructor|].
  destruct (opens next) eqn:Eo; [|now constructor].
  apply atl_site; [now apply closes_spec|now apply opens_spec|exact IH].
Qed.

Lemma commas_added_refl t : commas_added t t.
Proof. induction t; now constructor. Qed.

Lemma commas_added_app a a' b b' :
  commas_added a a' -> commas_added b b' -> commas_added (a ++ b) (a' ++ b').
Proof.
  induction 1 as [|c t u _ IH|t u _ IH]; simpl; intros Hb; auto.
  - apply ca_keep. auto.
  - apply ca_add. auto.
Qed.

Lemma inserted_commas_added t u : inserted_at_sites t u -> commas_added t u.
Proof.
  induction 1 as [|c t u _ IH|g1 g2 t u _ _ _ IH].
  - constructor.
  - now constructor.
  - apply commas_added_app; [apply commas_added_refl|].
    apply ca_add, ca_keep.
    apply commas_added_app; [apply commas_added_refl|exact IH].
Qed.

Lemma without_commas_app a b :
  without_commas (a ++ b) = without_commas a ++ without_commas b.
Proof. apply filter_app. Qed.

Lemma without_commas_added t u :
  commas_added t u -> without_commas u = without_commas t.
Proof.
  induction 1 as [|c t u _ IH|t u _ IH]; simpl; auto.
  now rewrite IH.
Qed.

Lemma without_commas_removed t u :
  removed_before_brace t u -> without_commas u = without_commas t.
Proof.
  induction 1 as [|c t u _ IH|g t u _ _ IH]; simpl; auto.
  - now rewrite IH.
  - change (without_commas (g ++ u) = without_commas (g ++ t)).
    now rewrite !without_commas_app, IH.
Qed.

Lemma appended_to_lines_nil ls ls' :
  appended_to_lines ls ls' -> ls = [] <-> ls' = [].
Proof. destruct 1; split; (reflexivity || discriminate). Qed.

Lemma without_commas_join lines lines' :
  appended_to_lines lines lines' ->
  without_commas (join [LF] lines') = without_commas (join [LF] lines).
Proof.
  induction 1 as [|l ls ls' H IH|l next ls ls' _ _ H IH]; [reflexivity| |].
  - destruct ls as [|a ls].
    + inversion H. reflexivity.
    + assert (ls' <> []) by (rewrite <- (appended_to_lines_nil H); discriminate).
      rewrite !join_cons by (auto; discriminate).
      rewrite !without_commas_app. now rewrite IH.
  - assert (ls' <> []) by (rewrite <- (appended_to_lines_nil H); discriminate).
    rewrite !join_cons by (auto; discriminate).
    rewrite !without_commas_app, IH.
    unfold without_commas at 2. simpl. now rewrite app_nil_r.
Qed.

Lemma without_commas_append t :
  without_commas (append_commas t) = without_commas t.
Proof.
  unfold append_commas.
  rewrite (without_commas_join (fix_lines_appended (split LF t))).
  now rewrite join_split.
Qed.

(** ** Repairing twice *)

Lemma cp_refl Q x : commas_put Q x x.
Proof. induction x; now constructor. Qed.

Lemma cp_app Q m x x' : commas_put Q x x' -> commas_put Q (m ++ x) (m ++ x').
Proof. intros H. induction m; simpl; [exact H|now constructor]. Qed.

Lemma cp_inv_char Q c x x' :
  commas_put Q x (c :: x') -> c <> COMMA ->
  exists y, x = c :: y /\ commas_put Q y x'.
Proof. intros H Hc. inversion H; subst; [eauto|congruence]. Qed.

(** Characters that are no commas are kept where they are. *)
Lemma cp_run Q x m y' :
  commas_put Q x (m ++ y') -> ~ In COMMA m ->
  exists y, x = m ++ y /\ commas_put Q y y'.
Proof.
  revert x. induction m as [|c m IH]; intros x H Hm; simpl in *.
  - eauto.
  - apply cp_inv_char in H as (y & -> & H); [|intuition congruence].
    destruct (IH y H) as (z & -> & Hz); [tauto|]. eauto.
Qed.

Lemma all_isspace_no_comma ws : all isspace ws -> ~ In COMMA ws.
Proof.
  unfold all. rewrite forallb_forall. intros H Hin. apply H in Hin.
  discriminate.
Qed.

(** Cutting the new text before a character that is no comma cuts the old
    text before the same character. *)
Lemma cp_split_weak Q x m c y' :
  commas_put Q x (m ++ c :: y') -> c <> COMMA ->
  exists mx y, x = mx ++ c :: y /\ commas_put Q y y'.
Proof.
  intros H Hc. remember (m ++ c :: y') as x' eqn:E.
  revert m E. induction H as [|d x x' H IH|x x' HQ H IH]; intros m E.
  - destruct m; discriminate.
  - destruct m as [|e m]; simpl in E.
    + injection E as -> ->. now exists [], x.
    + injection E as -> E. destruct (IH m E) as (mx & y & -> & Hy).
      now exists (e :: mx), y.
  - destruct m as [|e m]; simpl in E; [congruence|].
    injection E as <- E.
    destruct (IH m E) as (mx & y & Ex & Hy). now exists mx, y.
Qed.

(** When that character is no line feed either, the old text before it is
    the new one less the commas put in. *)
Lemma cp_split Q x m c y' :
  commas_put Q x (m ++ c :: y') -> c <> COMMA -> c <> LF ->
  exists mx y, x = mx ++ c :: y /\ commas_put anything mx m /\
               commas_put Q y y'.
Proof.
  intros H Hc Hlf. remember (m ++ c :: y') as x' eqn:E.
  revert m E. induction H as [|d x x' H IH|x x' HQ H IH]; intros m E.
  - destruct m; discriminate.
  - destruct m as [|e m]; simpl in E.
    + injection E as -> ->. exists [], x. repeat split; [constructor|exact H].
    + injection E as -> E. destruct (IH m E) as (mx & y & -> & Hm & Hy).
      exists (e :: mx), y. repeat split; [now constructor|exact Hy].
  - destruct m as [|e m]; simpl in E; [congruence|].
    injection E as <- E.
    destruct m as [|e m]; simpl in E; [congruence|].
    injection E as <- E.
    destruct (IH (LF :: m)) as (mx & y & Ex & Hm & Hy); [now rewrite E|].
    pose proof Hm as Hm'.
    apply cp_inv_char in Hm' as (mx' & -> & _); [|discriminate].
    exists (LF :: mx'), y. split; [exact Ex|]. split; [|exact Hy].
    apply cp_comma; [exact I|exact Hm].
Qed.

Lemma cp_in_new x x' c : commas_put anything x x' -> In c x -> In c x'.
Proof.
  induction 1 as [|d x x' H IH|x x' _ H IH]; intros Hin.
  - exact Hin.
  - destruct Hin as [->|Hin]; [now left|right; auto].
  - right. auto.
Qed.

Lemma cp_in_old x x' c :
  commas_put anything x x' -> In c x' -> c <> COMMA -> In c x.
Proof.
  induction 1 as [|d x x' H IH|x x' _ H IH]; intros Hin Hc.
  - exact Hin.
  - destruct Hin as [->|Hin]; [now left|right; auto].
  - destruct Hin as [E|Hin]; [congruence|]. now apply IH.
Qed.

Lemma cp_not_nil x x' : commas_put anything x x' -> x' <> [] -> x <> [].
Proof.
  induction 1 as [|d x x' H IH|x x' _ H IH]; intros Hne; try discriminate.
  congruence.
Qed.

Lemma all_notquote_iff s : all notquote s <-> ~ In QUOTE s.
Proof.
  unfold all. rewrite forallb_forall. split.
  - intros H Hin. apply H in Hin. discriminate.
  - intros H c Hin. unfold notquote. apply negb_true_iff, char_eqb_neq.
    intros ->. auto.
Qed.

(** A key opening of the new text is one of the old text, whose key is the
    new key less the commas put in. *)
Lemma cp_key_opening Q x o' r' key' :
  commas_put Q x (o' ++ r') -> key_opening_of key' o' ->
  exists key o r,
    x = o ++ r /\ key_opening_of key o /\
    commas_put anything key key' /\ commas_put Q r r'.
Proof.
  intros H (ws1 & ws2 & Hne & Hk & H1 & H2 & ->).
  simpl in H. apply cp_inv_char in H as (x1 & -> & H); [|discriminate].
  rewrite <- app_assoc in H. simpl in H.
  apply cp_split in H as (key & x2 & -> & Hkey & H); try discriminate.
  rewrite <- app_assoc in H. simpl in H.
  apply cp_run in H as (x3 & -> & H); [|now apply all_isspace_no_comma].
  apply cp_inv_char in H as (x4 & -> & H); [|discriminate].
  rewrite <- app_assoc in H. simpl in H.
  apply cp_run in H as (x5 & -> & H); [|now apply all_isspace_no_comma].
  apply cp_inv_char in H as (r & -> & H); [|discriminate].
  exists key, (QUOTE :: key ++ QUOTE :: ws1 ++ COLON :: ws2 ++ [LBRACE]), r.
  split; [simpl; now repeat (rewrite <- app_assoc; simpl)|].
  split; [|split; [exact Hkey|exact H]].
  exists ws1, ws2. repeat split; auto.
  - revert Hne. now apply cp_not_nil.
  - apply all_notquote_iff. intros Hin.
    apply (proj1 (all_notquote_iff key') Hk). revert Hin. now apply cp_in_new.
Qed.

(** A match of the comma-adding pattern in the new text is one in the
    old text. *)
Lemma cp_brace_key_site Q x x' :
  commas_put Q x x' -> brace_key_site x' -> brace_key_site x.
Proof.
  intros H (g1 & g2 & r' & (ws1 & Hne1 & Hws1 & ->)
            & (ws2 & o' & Hne2 & Hws2 & (key' & Ho') & ->) & ->).
  repeat (rewrite <- app_assoc in H; simpl in H).
  apply cp_run in H as (x1 & -> & H); [|now apply all_isspace_no_comma].
  apply cp_inv_char in H as (x2 & -> & H); [|discriminate].
  apply cp_inv_char in H as (x3 & -> & H); [|discriminate].
  apply cp_run in H as (x4 & -> & H); [|now apply all_isspace_no_comma].
  destruct (@cp_key_opening Q x4 o' r' key' H Ho')
    as (key & o & r & -> & Ho & _ & _).
  exists (ws1 ++ [RBRACE]), (ws2 ++ o), r. split; [now exists ws1|].
  split; [exists ws2, o; repeat split; auto; now exists key|].
  now repeat (rewrite <- app_assoc; simpl).
Qed.

Lemma inserted_commas_put x x' :
  inserted_at_sites x x' -> commas_put quote_ahead x x'.
Proof.
  induction 1 as [|c x x' _ IH|g1 g2 x x' H1 H2 _ IH].
  - constructor.
  - now constructor.
  - apply cp_app. apply cp_comma.
    + destruct H2 as (ws & o & _ & Hws & Ho & ->).
      destruct (key_opening_head Ho) as (o' & ->).
      exists ws, (o' ++ x'). split; [exact Hws|].
      now rewrite <- app_assoc.
    + apply cp_keep. now apply cp_app.
Qed.

(** *** No match is left behind by the substitution *)

Lemma not_occurs_cons (P : text -> Prop) c t :
  ~ P (c :: t) -> ~ occurs P t -> ~ occurs P (c :: t).
Proof. intros H1 H2 H. apply occurs_cons_inv in H. tauto. Qed.

Lemma not_occurs_tail (P : text -> Prop) m t :
  ~ occurs P (m ++ t) -> ~ occurs P t.
Proof. intros H Ho. apply H. now apply occurs_app. Qed.

Lemma brace_key_site_space c t : brace_key_site (c :: t) -> isspace c = true.
Proof.
  intros (g1 & g2 & rest & (ws & Hne & Hws & ->) & _ & E).
  destruct ws as [|w ws]; [congruence|]. simpl in E. injection E as -> _.
  now apply all_cons in Hws.
Qed.

Lemma no_site_nil : ~ occurs brace_key_site [].
Proof.
  intros ([|c pre] & s & E & H); [|discriminate]. simpl in E. subst s.
  destruct H as (g1 & g2 & rest & (ws & _ & _ & ->) & _ & E).
  destruct ws; discriminate.
Qed.

(** The first character that is not white space is the same however the
    text is cut. *)
Lemma first_nonspace ws1 c1 r1 ws2 c2 r2 :
  all isspace ws1 -> all isspace ws2 ->
  isspace c1 = false -> isspace c2 = false ->
  ws1 ++ c1 :: r1 = ws2 ++ c2 :: r2 ->
  ws1 = ws2 /\ c1 = c2 /\ r1 = r2.
Proof.
  revert ws2. induction ws1 as [|a ws1 IH]; intros [|b ws2] H1 H2 Hc1 Hc2 E;
    simpl in E.
  - injection E as -> ->. auto.
  - injection E as -> _. apply all_cons in H2 as [H2 _]. congruence.
  - injection E as -> _. apply all_cons in H1 as [H1 _]. congruence.
  - injection E as -> E. apply all_cons in H1 as [_ H1].
    apply all_cons in H2 as [_ H2].
    destruct (IH ws2 H1 H2 Hc1 Hc2 E) as (-> & -> & ->). auto.
Qed.

(** A character that is not white space starts no match. *)
Lemma no_site_char c t :
  isspace c = false ->
  ~ occurs brace_key_site t -> ~ occurs brace_key_site (c :: t).
Proof.
  intros Hc H. apply not_occurs_cons; [|exact H].
  intros Hs. apply brace_key_site_space in Hs. congruence.
Qed.

(** White space that is not followed by a closing brace and a line feed
    starts no match. *)
Lemma no_site_spaces ws t :
  all isspace ws -> stops isspace t ->
  (forall t', t <> RBRACE :: LF :: t') ->
  ~ occurs brace_key_site t -> ~ occurs brace_key_site (ws ++ t).
Proof.
  intros Hws Hst Ht H. induction ws as [|w ws IH]; [exact H|].
  apply all_cons in Hws as [Hw Hws]. simpl.
  apply not_occurs_cons; [|auto].
  intros Hs. apply brace_key_site_iff in Hs. apply Hs. unfold brace_key.
  destruct (brace_end (w :: ws ++ t)) as [s1|] eqn:E1; [|reflexivity].
  destruct (eat LF s1) as [s2|] eqn:E2; [|reflexivity]. exfalso.
  apply brace_end_spec in E1 as (g & (ws' & Hne & Hws' & ->) & E1).
  apply eat_spec in E2 as ->. rewrite <- app_assoc in E1. simpl in E1.
  destruct t as [|c t].
  - rewrite app_nil_r in E1.
    assert (Hin : In RBRACE (w :: ws)) by (rewrite E1; apply in_elt).
    assert (Hall : all isspace (w :: ws)) by (apply all_cons; auto).
    unfold all in Hall. rewrite forallb_forall in Hall.
    apply Hall in Hin. discriminate.
  - change (w :: ws ++ c :: t) with ((w :: ws) ++ c :: t) in E1.
    apply first_nonspace in E1 as (_ & -> & E1);
      [|apply all_cons; auto|auto|exact Hst|reflexivity].
    apply (Ht s2). congruence.
Qed.

(** The first quote of a text is the same however the text is cut. *)
Lemma first_quote a r a' r' :
  ~ In QUOTE a -> ~ In QUOTE a' ->
  a ++ QUOTE :: r = a' ++ QUOTE :: r' -> a = a' /\ r = r'.
Proof.
  revert a'. induction a as [|c a IH]; intros [|c' a'] H1 H2 E; simpl in *.
  - injection E as ->. auto.
  - injection E as <- _. tauto.
  - injection E as -> _. tauto.
  - injection E as -> E. destruct (IH a') as [-> ->]; auto.
Qed.

Lemma not_in_app {A} (x : A) l1 l2 : ~ In x (l1 ++ l2) <-> ~ In x l1 /\ ~ In x l2.
Proof. rewrite in_app_iff. tauto. Qed.

Lemma all_isspace_no_quote ws : all isspace ws -> ~ In QUOTE ws.
Proof.
  unfold all. rewrite forallb_forall. intros H Hin. apply H in Hin.
  discriminate.
Qed.

(** Inside a key that holds no line feed no match starts. *)
Lemma no_site_key key t :
  ~ In QUOTE key -> ~ In LF key ->
  ~ occurs brace_key_site (QUOTE :: t) ->
  ~ occurs brace_key_site (key ++ QUOTE :: t).
Proof.
  intros Hq Hlf H. induction key as [|k key IH]; [exact H|]. simpl.
  apply not_occurs_cons; [|apply IH; simpl in *; tauto].
  intros (g1 & g2 & rest & (ws & _ & Hws & ->)
          & (ws2 & o & _ & Hws2 & Ho & ->) & E).
  destruct (key_opening_head Ho) as (o' & ->).
  change (k :: key ++ QUOTE :: t) with ((k :: key) ++ QUOTE :: t) in E.
  replace ((ws ++ [RBRACE]) ++ LF :: (ws2 ++ QUOTE :: o') ++ rest)
    with ((ws ++ RBRACE :: LF :: ws2) ++ QUOTE :: o' ++ rest) in E
    by (now repeat (rewrite <- app_assoc; simpl)).
  apply first_quote in E as [E _]; [|exact Hq|].
  - apply Hlf. rewrite E. apply in_or_app. right. right. now left.
  - apply not_in_app. split; [now apply all_isspace_no_quote|].
    intros [Hin|[Hin|Hin]]; try discriminate.
    revert Hin. now apply all_isspace_no_quote.
Qed.

Lemma single_line_keys_tail m t :
  single_line_keys (m ++ t) -> single_line_keys t.
Proof.
  intros H pre key o post E Ho. apply (H (m ++ pre) key o post); [|exact Ho].
  now rewrite E, <- app_assoc.
Qed.

(** After the substitution the pattern matches nowhere, provided no key
    runs over a line feed. *)
Lemma insert_commas_settled t :
  single_line_keys t -> ~ occurs brace_key_site (insert_commas t).
Proof.
  apply (insert_commas_ind
           (fun t out => single_line_keys t -> ~ occurs brace_key_site out)).
  - intros _. apply no_site_nil.
  - intros c s E IH Hk. apply not_occurs_cons.
    + intros Hs.
      assert (brace_key_site (c :: s)).
      { revert Hs. apply cp_brace_key_site with (Q := quote_ahead).
        apply cp_keep, inserted_commas_put, insert_commas_inserted. }
      apply brace_key_site_iff in H. congruence.
    + apply IH. now apply (@single_line_keys_tail [c] s).
  - intros s g1 g2 rest E IH Hk.
    apply brace_key_spec in E as ((ws1 & _ & Hws1 & ->)
      & (ws2 & o & _ & Hws2 & (key & ws3 & ws4 & Hne & Hq & Hws3 & Hws4 & ->) & ->)
      & ->).
    assert (Hlf : ~ In LF key).
    { apply (Hk ((ws1 ++ [RBRACE]) ++ LF :: ws2) key
                (QUOTE :: key ++ QUOTE :: ws3 ++ COLON :: ws4 ++ [LBRACE]) rest).
      - now repeat (rewrite <- app_assoc; simpl).
      - exists ws3, ws4. repeat split; auto. }
    assert (Hrest : ~ occurs brace_key_site (insert_commas rest)).
    { apply IH.
      apply (@single_line_keys_tail
               ((ws1 ++ [RBRACE]) ++ LF :: ws2 ++ QUOTE :: key ++ QUOTE
                  :: ws3 ++ COLON :: ws4 ++ [LBRACE])).
      repeat (rewrite <- app_assoc in Hk; simpl in Hk).
      now repeat (rewrite <- app_assoc; simpl). }
    repeat (rewrite <- app_assoc; simpl).
    apply no_site_spaces; [exact Hws1|reflexivity|discriminate|].
    apply no_site_char; [reflexivity|].
    apply no_site_char; [reflexivity|].
    change (LF :: ws2 ++ ?x) with ((LF :: ws2) ++ x).
    apply no_site_spaces;
      [apply all_cons; auto|reflexivity|discriminate|].
    apply no_site_char; [reflexivity|].
    apply no_site_key; [now apply all_notquote_iff|exact Hlf|].
    apply no_site_char; [reflexivity|].
    apply no_site_spaces; [exact Hws3|reflexivity|discriminate|].
    apply no_site_char; [reflexivity|].
    apply no_site_spaces; [exact Hws4|reflexivity|discriminate|].
    apply no_site_char; [reflexivity|exact Hrest].
Qed.

(** The basic repair, done twice, is the basic repair done once, on texts
    whose keys lie on one line. *)
Lemma insert_commas_twice t :
  single_line_keys t -> insert_commas (insert_commas t) = insert_commas t.
Proof. intros H. now apply insert_commas_noop, insert_commas_settled. Qed.

(** *** Lines and the flat text *)

Lemma split_app_sep sep a b :
  split sep (a ++ sep :: b) = split sep a ++ split sep b.
Proof.
  induction a as [|c a IH]; simpl.
  - now rewrite char_eqb_refl.
  - destruct (char_eqb c sep); [now rewrite IH|].
    rewrite IH. destruct (split sep a) as [|l ls] eqn:E; [|reflexivity].
    now apply split_not_nil in E.
Qed.

Lemma split_no_sep sep a : ~ In sep a -> split sep a = [a].
Proof.
  induction a as [|c a IH]; simpl; intros H; [reflexivity|].
  destruct (char_eqb c sep) eqn:E.
  - apply char_eqb_eq in E. tauto.
  - rewrite IH by tauto. reflexivity.
Qed.

Lemma split_app_l sep a b :
  ~ In sep a ->
  split sep (a ++ b) =
  (a ++ hd [] (split sep b)) :: tl (split sep b).
Proof.
  induction a as [|c a IH]; simpl; intros H.
  - destruct (split sep b) as [|l ls] eqn:E; [|reflexivity].
    now apply split_not_nil in E.
  - destruct (char_eqb c sep) eqn:E.
    + apply char_eqb_eq in E. tauto.
    + rewrite IH by tauto. reflexivity.
Qed.

Lemma split_app_r sep a b :
  ~ In sep b ->
  split sep (a ++ b) =
  removelast (split sep a) ++ [last (split sep a) [] ++ b].
Proof.
  intros Hb. induction a as [|c a IH]; simpl.
  - now apply split_no_sep.
  - destruct (char_eqb c sep) eqn:E.
    + rewrite IH.
      destruct (split sep a) as [|l ls] eqn:Ea;
        [now apply split_not_nil in Ea|reflexivity].
    + rewrite IH.
      destruct (split sep a) as [|l ls] eqn:Ea;
        [now apply split_not_nil in Ea|].
      destruct ls as [|l2 ls]; reflexivity.
Qed.

Lemma split_lines_no_sep sep x l : In l (split sep x) -> ~ In sep l.
Proof.
  revert l. induction x as [|c x IH]; simpl; intros l.
  - intros [<-|[]]. auto.
  - destruct (char_eqb c sep) eqn:E.
    + intros [<-|Hin]; auto.
    + destruct (split sep x) as [|l0 ls] eqn:Ex.
      * now apply split_not_nil in Ex.
      * apply char_eqb_neq in E. intros [<-|Hin].
        -- simpl. intros [->|H]; [congruence|].
           revert H. apply IH. now left.
        -- apply IH. now right.
Qed.

Lemma split_join sep ls :
  ls <> [] -> (forall l, In l ls -> ~ In sep l) ->
  split sep (join [sep] ls) = ls.
Proof.
  induction ls as [|l ls IH]; [congruence|]. intros _ H.
  destruct ls as [|l2 ls].
  - simpl. apply split_no_sep, H. now left.
  - rewrite join_cons by discriminate. simpl app.
    rewrite split_app_sep, split_no_sep by (apply H; now left).
    simpl. f_equal. apply IH; [discriminate|].
    intros l' Hin. apply H. now right.
Qed.

Lemma hspace_spec ws : all hspace ws <-> all isspace ws /\ ~ In LF ws.
Proof.
  unfold all, hspace. rewrite !forallb_forall. split.
  - intros H. split.
    + intros c Hin. apply H in Hin. now apply andb_true_iff in Hin.
    + intros Hin. apply H in Hin. apply andb_true_iff in Hin as [_ Hin].
      now rewrite char_eqb_refl in Hin.
  - intros [H1 H2] c Hin. rewrite (H1 c Hin). simpl.
    apply negb_true_iff, char_eqb_neq. intros ->. auto.
Qed.

Lemma adjacent_site_flat x :
  adjacent_site (split LF x) -> occurs line_site x.
Proof.
  intros (pre & l1 & l2 & post & E & (p & ws & Hws & ->)
          & (ws2 & o & r & Hws2 & Ho & ->)).
  assert (H1 : ~ In LF (p ++ RBRACE :: ws)).
  { apply (@split_lines_no_sep LF x). rewrite E. apply in_elt. }
  assert (H2 : ~ In LF (ws2 ++ o ++ r)).
  { apply (@split_lines_no_sep LF x). rewrite E.
    apply in_or_app. right. right. now left. }
  destruct (join_app_two [LF] pre (p ++ RBRACE :: ws) (ws2 ++ o ++ r) post)
    as (a & b & Hj).
  rewrite <- E, join_split in Hj.
  exists (a ++ p), (RBRACE :: ws ++ LF :: ws2 ++ o ++ r ++ b). split.
  - rewrite Hj. now repeat (rewrite <- app_assoc; simpl).
  - exists ws, ws2, o, (r ++ b).
    rewrite !in_app_iff in H1, H2. simpl in H1.
    split; [apply hspace_spec; tauto|].
    split; [apply hspace_spec; tauto|].
    split; [exact Ho|]. split; [|reflexivity].
    intros Hin. apply H2. right. apply in_or_app. now left.
Qed.

Lemma flat_adjacent_site x :
  occurs line_site x -> adjacent_site (split LF x).
Proof.
  intros (pre & s & -> & ws & ws2 & o & rest & Hws & Hws2 & Ho & Hlf & ->).
  apply hspace_spec in Hws as [Hws Hn], Hws2 as [Hws2 Hn2].
  replace (pre ++ RBRACE :: ws ++ LF :: ws2 ++ o ++ rest)
    with ((pre ++ RBRACE :: ws) ++ LF :: (ws2 ++ o) ++ rest)
    by (now repeat (rewrite <- app_assoc; simpl)).
  rewrite split_app_sep.
  rewrite (@split_app_r LF pre (RBRACE :: ws))
    by (simpl; intros [H|H]; [discriminate|auto]).
  rewrite (@split_app_l LF (ws2 ++ o) rest)
    by (rewrite in_app_iff; tauto).
  exists (removelast (split LF pre)),
    (last (split LF pre) [] ++ RBRACE :: ws),
    ((ws2 ++ o) ++ hd [] (split LF rest)), (tl (split LF rest)).
  split; [now rewrite <- app_assoc|]. split.
  - now exists (last (split LF pre) []), ws.
  - exists ws2, o, (hd [] (split LF rest)).
    split; [exact Hws2|]. split; [exact Ho|]. now rewrite <- app_assoc.
Qed.

(** *** The line loop, done twice *)

Lemma closes_comma l : closes (l ++ [COMMA]) = false.
Proof.
  apply closes_false. intros (pre & ws & Hws & E).
  destruct ws as [|w ws _] using rev_ind.
  - apply (f_equal (@rev char)) in E. rewrite !rev_app_distr in E.
    simpl in E. discriminate.
  - change (pre ++ RBRACE :: ws ++ [w]) with (pre ++ (RBRACE :: ws) ++ [w]) in E.
    rewrite app_assoc in E. apply app_inj_tail in E as [_ <-].
    apply all_app in Hws as [_ Hw]. discriminate.
Qed.

Lemma key_opening_last o : key_opening o -> exists o', o = o' ++ [LBRACE].
Proof.
  intros (key & ws1 & ws2 & _ & _ & _ & _ & ->).
  exists (QUOTE :: key ++ QUOTE :: ws1 ++ COLON :: ws2).
  simpl. now repeat (rewrite <- app_assoc; simpl).
Qed.

Lemma opens_comma l : opens (l ++ [COMMA]) = opens l.
Proof.
  destruct (opens l) eqn:E.
  - apply opens_spec in E as (ws & o & r & Hws & Ho & ->).
    apply opens_spec. exists ws, o, (r ++ [COMMA]).
    now rewrite <- !app_assoc.
  - apply opens_false. apply opens_false in E. intros (ws & o & r & Hws & Ho & El).
    apply E. destruct r as [|c r _] using rev_ind.
    + rewrite app_nil_r in El.
      destruct (key_opening_last Ho) as (o' & ->).
      rewrite app_assoc in El. apply app_inj_tail in El as [_ El].
      discriminate.
    + rewrite !app_assoc in El. apply app_inj_tail in El as [El _].
      exists ws, o, r. now rewrite El, <- app_assoc.
Qed.

Lemma opens_fix_line l after : opens (fix_line l after) = opens l.
Proof.
  unfold fix_line.
  destruct (closes l && match after with [] => false | n :: _ => opens n end);
    [apply opens_comma|reflexivity].
Qed.

(** The loop leaves no two adjacent lines that pass its tests. *)
Lemma any_adjacent_cons l1 l2 ls :
  any_adjacent (l1 :: l2 :: ls) =
  closes l1 && opens l2 || any_adjacent (l2 :: ls).
Proof. reflexivity. Qed.

Lemma fix_lines_settled lines : any_adjacent (fix_lines lines) = false.
Proof.
  induction lines as [|l1 ls IH]; [reflexivity|].
  destruct ls as [|l2 ls']; [reflexivity|].
  cbn [fix_lines] in *. rewrite any_adjacent_cons, IH, orb_false_r.
  rewrite opens_fix_line.
  unfold fix_line at 1. destruct (closes l1) eqn:Ec; simpl.
  - destruct (opens l2) eqn:Eo; simpl.
    + now rewrite closes_comma.
    + now rewrite Ec.
  - now rewrite Ec.
Qed.

Lemma fix_lines_no_lf lines :
  (forall l, In l lines -> ~ In LF l) ->
  forall l, In l (fix_lines lines) -> ~ In LF l.
Proof.
  induction lines as [|l1 ls IH]; intros H l; simpl; [tauto|].
  intros [<-|Hin].
  - unfold fix_line.
    match goal with |- context [if ?b then _ else _] => destruct b end.
    + intros Hl. apply in_app_or in Hl as [Hl|[Hl|[]]]; [|discriminate].
      revert Hl. apply H. now left.
    + apply H. now left.
  - apply IH; [|exact Hin]. intros l' Hl'. apply H. now right.
Qed.

Lemma split_append_commas t :
  split LF (append_commas t) = fix_lines (split LF t).
Proof.
  unfold append_commas. apply split_join.
  - intros E. apply (f_equal (@length text)) in E.
    rewrite fix_lines_length in E.
    destruct (split LF t) eqn:Es; [now apply split_not_nil in Es|discriminate].
  - apply fix_lines_no_lf. intros l. apply split_lines_no_sep.
Qed.

Lemma append_commas_settled t : ~ occurs line_site (append_commas t).
Proof.
  intros H. apply flat_adjacent_site in H.
  rewrite split_append_commas in H. apply any_adjacent_spec in H.
  now rewrite fix_lines_settled in H.
Qed.

(** *** What the cleanup pass keeps *)

Lemma rbb_refl x : removed_before_brace x x.
Proof. induction x; now constructor. Qed.

Lemma rbb_app a a' b b' :
  removed_before_brace a a' -> removed_before_brace b b' ->
  removed_before_brace (a ++ b) (a' ++ b').
Proof.
  induction 1 as [|c a a' _ IH|g a a' Hg _ IH]; intros Hb; simpl.
  - exact Hb.
  - apply rbb_keep. auto.
  - rewrite <- !app_assoc. apply rbb_site; auto.
Qed.

Lemma brace_text_head g : brace_text g ->
  exists c g', g = c :: g' /\ (isspace c = true \/ c = RBRACE).
Proof.
  intros ([|w ws] & Hws & ->); simpl.
  - exists RBRACE, []. auto.
  - exists w, (ws ++ [RBRACE]). apply all_cons in Hws as [Hw _]. auto.
Qed.

Lemma brace_text_chars g c : brace_text g -> In c g ->
  isspace c = true \/ c = RBRACE.
Proof.
  intros (ws & Hws & ->) Hin. apply in_app_or in Hin as [Hin|[<-|[]]]; auto.
  left. unfold all in Hws. rewrite forallb_forall in Hws. auto.
Qed.

(** Cutting the new text anywhere cuts the old text. *)
Lemma rbb_split_weak x m y' :
  removed_before_brace x (m ++ y') ->
  exists mx y, x = mx ++ y /\ removed_before_brace y y'.
Proof.
  intros H. remember (m ++ y') as x' eqn:E. revert m E.
  induction H as [|c x x' H IH|g x x' Hg H IH]; intros m E.
  - destruct m; [|discriminate]. simpl in E. subst y'.
    exists [], []. split; [reflexivity|constructor].
  - destruct m as [|e m]; simpl in E.
    + subst y'. exists [], (c :: x). split; [reflexivity|now constructor].
    + injection E as -> E. destruct (IH m E) as (mx & y & -> & Hy).
      now exists (e :: mx), y.
  - apply app_eq_app in E as (l & [[-> ->]|[-> ->]]).
    + exists (COMMA :: m), (l ++ x). split.
      * simpl. now rewrite <- app_assoc.
      * apply rbb_app; [apply rbb_refl|exact H].
    + destruct (IH l eq_refl) as (mx & y & -> & Hy).
      exists (COMMA :: g ++ mx), y. split; [|exact Hy].
      simpl. now rewrite <- app_assoc.
Qed.

(** A character that is neither white space nor a closing brace is kept
    where it is, and the text before it loses commas of its own only. *)
Lemma rbb_inv_char c y y' :
  removed_before_brace y (c :: y') -> isspace c = false -> c <> RBRACE ->
  exists z, y = c :: z /\ removed_before_brace z y'.
Proof.
  intros H Hc Hb. inversion H as [|? ? ? H'|g ? ? Hg H' E1 E2]; subst.
  - eauto.
  - exfalso. destruct (brace_text_head Hg) as (d & g' & -> & Hd).
    simpl in E2. injection E2 as -> _. destruct Hd; congruence.
Qed.

Lemma rbb_split x m c y' :
  removed_before_brace x (m ++ c :: y') ->
  isspace c = false -> c <> RBRACE ->
  exists mx y, x = mx ++ c :: y /\ removed_before_brace mx m /\
               removed_before_brace y y'.
Proof.
  intros H Hc Hb. remember (m ++ c :: y') as x' eqn:E. revert m E.
  induction H as [|d x x' H IH|g x x' Hg H IH]; intros m E.
  - destruct m; discriminate.
  - destruct m as [|e m]; simpl in E.
    + injection E as -> ->. exists [], x. repeat split; [constructor|exact H].
    + injection E as -> E. destruct (IH m E) as (mx & y & -> & Hm & Hy).
      exists (e :: mx), y. repeat split; [now constructor|exact Hy].
  - apply app_eq_app in E as (l & [[Eg E]|[-> ->]]).
    + destruct l as [|e l]; simpl in E.
      * rewrite app_nil_r in Eg. subst g.
        destruct (IH [] (eq_sym E)) as (mx & y & -> & Hm & Hy).
        exists (COMMA :: m ++ mx), y. split; [|split; [|exact Hy]].
        -- simpl. now rewrite <- app_assoc.
        -- rewrite <- (app_nil_r m) at 2. now apply rbb_site.
      * exfalso. injection E as <- _. subst g.
        destruct (@brace_text_chars (m ++ c :: l) c Hg) as [Hs|Hs];
          [apply in_elt|congruence|congruence].
    + destruct (IH l eq_refl) as (mx & y & -> & Hm & Hy).
      exists (COMMA :: g ++ mx), y. split; [|split; [|exact Hy]].
      * simpl. now rewrite <- app_assoc.
      * now apply rbb_site.
Qed.

(** White space that ends at a character other than a closing brace is
    kept as it is. *)
Lemma rbb_spaces_then y sp c z' :
  removed_before_brace y (sp ++ c :: z') ->
  all isspace sp -> isspace c = false -> c <> RBRACE ->
  exists z, y = sp ++ c :: z /\ removed_before_brace z z'.
Proof.
  intros H Hsp Hc Hb.
  destruct (rbb_split _ _ H Hc Hb) as (mx & z & -> & Hm & Hz).
  exists z. split; [|exact Hz]. f_equal.
  clear - Hm Hsp. induction Hm as [|d a a' _ IH|g a a' Hg _ _].
  - reflexivity.
  - apply all_cons in Hsp as [_ Hsp]. f_equal. auto.
  - exfalso. destruct Hg as (ws & _ & ->).
    apply all_app in Hsp as [Hsp _]. apply all_app in Hsp as [_ Hsp].
    discriminate.
Qed.

Lemma rbb_inv_rbrace y y' :
  removed_before_brace y (RBRACE :: y') ->
  exists p z, y = p ++ RBRACE :: z /\ removed_before_brace z y'.
Proof.
  intros H. inversion H as [|? ? ? H'|g t u Hg H' E1 E2]; subst.
  - now exists [], t.
  - destruct Hg as ([|w ws] & Hws & ->); simpl in E2.
    + injection E2 as <-. now exists [COMMA], t.
    + injection E2 as -> _. apply all_cons in Hws as [Hw _]. discriminate.
Qed.

Lemma without_commas_in c t : In c (without_commas t) <-> In c t /\ c <> COMMA.
Proof.
  unfold without_commas. rewrite filter_In, negb_true_iff, char_eqb_neq.
  tauto.
Qed.

Lemma rbb_in a b c :
  removed_before_brace a b -> c <> COMMA -> (In c a <-> In c b).
Proof.
  intros H Hc. apply without_commas_removed in H.
  split; intros Hin.
  - apply (without_commas_in c b). rewrite H. now apply without_commas_in.
  - apply (without_commas_in c a). rewrite <- H. now apply without_commas_in.
Qed.

Lemma rbb_not_nil a b : removed_before_brace a b -> b <> [] -> a <> [].
Proof. destruct 1; intros Hne; (congruence || discriminate). Qed.

(** A key opening of the cleaned text is one of the text before the
    cleanup, with the same characters other than commas. *)
Lemma rbb_key_opening x o' r' key' :
  removed_before_brace x (o' ++ r') -> key_opening_of key' o' ->
  exists key o r,
    x = o ++ r /\ key_opening_of key o /\
    removed_before_brace o o' /\ removed_before_brace key key' /\
    removed_before_brace r r'.
Proof.
  intros H (ws1 & ws2 & Hne & Hk & H1 & H2 & ->).
  simpl in H. apply rbb_inv_char in H as (x1 & -> & H);
    [|reflexivity|discriminate].
  rewrite <- app_assoc in H. simpl in H.
  apply rbb_split in H as (key & x2 & -> & Hkey & H);
    [|reflexivity|discriminate].
  rewrite <- app_assoc in H. simpl in H.
  apply rbb_spaces_then in H as (x3 & -> & H);
    [|exact H1|reflexivity|discriminate].
  rewrite <- app_assoc in H. simpl in H.
  apply rbb_spaces_then in H as (r & -> & H);
    [|exact H2|reflexivity|discriminate].
  exists key, (QUOTE :: key ++ QUOTE :: ws1 ++ COLON :: ws2 ++ [LBRACE]), r.
  split; [simpl; now repeat (rewrite <- app_assoc; simpl)|].
  split; [|split; [|split; [exact Hkey|exact H]]].
  - exists ws1, ws2. repeat split; auto.
    + revert Hne. now apply rbb_not_nil.
    + apply all_notquote_iff. intros Hin.
      apply (proj1 (all_notquote_iff key') Hk).
      now apply (rbb_in Hkey (c := QUOTE)).
  - apply rbb_keep. apply rbb_app; [exact Hkey|apply rbb_refl].
Qed.

Lemma single_line_keys_cleaned u :
  single_line_keys u -> single_line_keys (remove_commas u).
Proof.
  intros Hk pre key' o' post E Ho'.
  pose proof (remove_commas_removed u) as H. rewrite E in H.
  apply rbb_split_weak in H as (mx & y & Eu & H).
  destruct (rbb_key_opening _ H Ho') as (key & o & r & -> & Ho & _ & Hkey & _).
  intros Hin. apply (Hk mx key o r Eu Ho).
  now apply (rbb_in Hkey (c := LF)).
Qed.

Lemma line_site_cleaned u :
  occurs line_site (remove_commas u) -> occurs line_site u.
Proof.
  intros (pre & s & E & ws & ws2 & o' & rest & Hws & Hws2 & (key' & Ho')
          & Hlf & ->).
  pose proof (remove_commas_removed u) as H. rewrite E in H.
  apply rbb_split_weak in H as (mx & y & -> & H).
  apply rbb_inv_rbrace in H as (p & z & -> & H).
  destruct (key_opening_head (ex_intro _ key' Ho')) as (q & Eo).
  assert (Hsp : all isspace (ws ++ LF :: ws2)).
  { apply hspace_spec in Hws as [Hws _], Hws2 as [Hws2 _].
    apply all_app. split; [exact Hws|]. apply all_cons. auto. }
  rewrite Eo in H.
  replace (ws ++ LF :: ws2 ++ (QUOTE :: q) ++ rest)
    with ((ws ++ LF :: ws2) ++ QUOTE :: q ++ rest) in H
    by (now repeat (rewrite <- app_assoc; simpl)).
  apply rbb_spaces_then in H as (z2 & -> & H);
    [|exact Hsp|reflexivity|discriminate].
  assert (H' : removed_before_brace (QUOTE :: z2) (o' ++ rest))
    by (rewrite Eo; now apply rbb_keep).
  destruct (rbb_key_opening _ H' Ho') as (key & o & r & Ez & Ho & Hoo & _ & _).
  exists (mx ++ p), (RBRACE :: ws ++ LF :: ws2 ++ o ++ r). split.
  - rewrite <- Ez. now repeat (rewrite <- app_assoc; simpl).
  - exists ws, ws2, o, r. repeat split; auto; [now exists key|].
    intros Hin. apply Hlf. now apply (rbb_in Hoo (c := LF)).
Qed.

(** *** No trailing comma is left behind *)

Lemma trailing_comma_site_head c t : trailing_comma_site (c :: t) -> c = COMMA.
Proof. intros (g & rest & _ & E). now injection E. Qed.

Lemma no_trailing_nil : ~ occurs trailing_comma_site [].
Proof.
  intros ([|c pre] & s & E & H); [|discriminate]. simpl in E. subst s.
  destruct H as (g & rest & _ & E). discriminate.
Qed.

(** Characters other than commas start no trailing-comma match. *)
Lemma no_trailing_chars m t :
  ~ In COMMA m ->
  ~ occurs trailing_comma_site t -> ~ occurs trailing_comma_site (m ++ t).
Proof.
  intros Hm H. induction m as [|c m IH]; [exact H|]. simpl.
  apply not_occurs_cons; [|apply IH; simpl in Hm; tauto].
  intros Hs. apply trailing_comma_site_head in Hs. simpl in Hm. intuition.
Qed.

Lemma brace_text_no_comma g : brace_text g -> ~ In COMMA g.
Proof.
  intros Hg Hin. destruct (@brace_text_chars g COMMA Hg Hin); discriminate.
Qed.

(** White space behind a comma of the cleaned text is, before the
    cleanup, white space with at most one comma in it. *)
Lemma rbb_run s ws r' :
  removed_before_brace s (ws ++ RBRACE :: r') -> all isspace ws ->
  (exists r, s = ws ++ RBRACE :: r) \/
  (exists wa wb r, all isspace wa /\ all isspace wb /\
                   s = wa ++ COMMA :: wb ++ RBRACE :: r).
Proof.
  revert s. induction ws as [|w ws IH]; intros s H Hws; simpl in H.
  - inversion H as [|? t u H'|g t u Hg H' E1 E2]; subst.
    + left. now exists t.
    + right. destruct Hg as (wsg & Hg & ->).
      exists [], wsg, t. repeat split; auto.
      simpl. now rewrite <- app_assoc.
  - apply all_cons in Hws as [Hw Hws].
    inversion H as [|? t u H'|g t u Hg H' E1 E2]; subst.
    + destruct (IH t H' Hws) as [(r & ->)|(wa & wb & r & Ha & Hb & ->)].
      * left. now exists r.
      * right. exists (w :: wa), wb, r. repeat split; auto.
        apply all_cons. auto.
    + right. destruct Hg as (wsg & Hg & ->).
      exists [], wsg, t. repeat split; auto.
      simpl. now rewrite <- app_assoc.
Qed.

Lemma remove_commas_settled u :
  ~ occurs double_comma_site u ->
  ~ occurs trailing_comma_site (remove_commas u).
Proof.
  apply (remove_commas_ind
    (fun u v => ~ occurs double_comma_site u ->
                ~ occurs trailing_comma_site v)).
  - intros _. apply no_trailing_nil.
  - intros c s E IH Hd. apply not_occurs_cons.
    + intros Hs. pose proof (trailing_comma_site_head Hs) as ->.
      destruct Hs as (g & r' & (ws & Hws & ->) & Es).
      injection Es as Es. rewrite <- app_assoc in Es. simpl in Es.
      pose proof (remove_commas_removed s) as H. rewrite Es in H.
      apply rbb_run in H as [(r & ->)|(wa & wb & r & Ha & Hb & ->)];
        [| |exact Hws].
      * assert (trailing_comma_site (COMMA :: ws ++ RBRACE :: r)).
        { exists (ws ++ [RBRACE]), r. split; [now exists ws|].
          now rewrite <- app_assoc. }
        apply trailing_comma_site_iff in H. congruence.
      * apply Hd, occurs_here. now exists wa, wb, r.
    + apply IH. intros H. apply Hd. now apply occurs_cons.
  - intros s g rest E IH Hd.
    apply trailing_comma_spec in E as (Hg & ->).
    apply no_trailing_chars; [now apply brace_text_no_comma|].
    apply IH. intros H. apply Hd.
    now apply (@occurs_app double_comma_site (COMMA :: g) rest).
Qed.

(** *** What the two comma-adding passes keep *)

Lemma cp_app_r Q a a' z :
  commas_put Q a a' -> commas_put anything (a ++ z) (a' ++ z).
Proof.
  induction 1 as [|c x x' _ IH|x x' _ _ IH]; simpl.
  - apply cp_refl.
  - now apply cp_keep.
  - apply cp_comma; [exact I|exact IH].
Qed.

(** A key opening of the new text, as a whole, is one of the old text
    with commas put in. *)
Lemma cp_key_opening_whole Q x o' r' key' :
  commas_put Q x (o' ++ r') -> key_opening_of key' o' ->
  exists key o r,
    x = o ++ r /\ key_opening_of key o /\
    commas_put anything o o' /\ commas_put Q r r'.
Proof.
  intros H (ws1 & ws2 & Hne & Hk & H1 & H2 & ->).
  simpl in H. apply cp_inv_char in H as (x1 & -> & H); [|discriminate].
  rewrite <- app_assoc in H. simpl in H.
  apply cp_split in H as (key & x2 & -> & Hkey & H); try discriminate.
  rewrite <- app_assoc in H. simpl in H.
  apply cp_run in H as (x3 & -> & H); [|now apply all_isspace_no_comma].
  apply cp_inv_char in H as (x4 & -> & H); [|discriminate].
  rewrite <- app_assoc in H. simpl in H.
  apply cp_run in H as (x5 & -> & H); [|now apply all_isspace_no_comma].
  apply cp_inv_char in H as (r & -> & H); [|discriminate].
  exists key, (QUOTE :: key ++ QUOTE :: ws1 ++ COLON :: ws2 ++ [LBRACE]), r.
  split; [simpl; now repeat (rewrite <- app_assoc; simpl)|].
  split; [|split; [|exact H]].
  - exists ws1, ws2. repeat split; auto.
    + revert Hne. now apply cp_not_nil.
    + apply all_notquote_iff. intros Hin.
      apply (proj1 (all_notquote_iff key') Hk). revert Hin.
      now apply cp_in_new.
  - apply cp_keep. now apply cp_app_r with (Q := anything).
Qed.

Lemma single_line_keys_put Q t u :
  commas_put Q t u -> single_line_keys t -> single_line_keys u.
Proof.
  intros H Hk pre key' o' post E Ho'. rewrite E in H.
  destruct (key_opening_head (ex_intro _ key' Ho')) as (q & Eo).
  rewrite Eo in H. simpl in H.
  apply cp_split_weak in H as (mx & y & Et & H); [|discriminate].
  assert (H' : commas_put Q (QUOTE :: y) (o' ++ post))
    by (rewrite Eo; now apply cp_keep).
  destruct (@cp_key_opening Q (QUOTE :: y) o' post key' H' Ho')
    as (key & o & r & Ey & Ho & Hkey & _).
  intros Hin. apply (Hk mx key o r); [now rewrite Et, Ey|exact Ho|].
  apply (@cp_in_old key key' LF Hkey Hin). discriminate.
Qed.

Lemma line_site_put Q t u :
  commas_put Q t u -> occurs line_site u -> occurs line_site t.
Proof.
  intros H (pre & s & E & ws & ws2 & o' & rest & Hws & Hws2 & (key' & Ho')
            & Hlf & ->).
  rewrite E in H.
  apply cp_split_weak in H as (mx & y & -> & H); [|discriminate].
  assert (Hsp : ~ In COMMA (ws ++ LF :: ws2)).
  { apply hspace_spec in Hws as [Hws _], Hws2 as [Hws2 _].
    apply all_isspace_no_comma, all_app. split; [exact Hws|].
    apply all_cons. auto. }
  replace (ws ++ LF :: ws2 ++ o' ++ rest)
    with ((ws ++ LF :: ws2) ++ o' ++ rest) in H
    by (now repeat (rewrite <- app_assoc; simpl)).
  apply cp_run in H as (y2 & -> & H); [|exact Hsp].
  destruct (@cp_key_opening_whole Q y2 o' rest key' H Ho')
    as (key & o & r & -> & Ho & Hoo & _).
  exists mx, (RBRACE :: ws ++ LF :: ws2 ++ o ++ r). split.
  - now repeat (rewrite <- app_assoc; simpl).
  - exists ws, ws2, o, r. repeat split; auto; [now exists key|].
    intros Hin. apply Hlf. revert Hin. now apply cp_in_new.
Qed.

(** A comma of the new text that is not followed by white space and a
    quote was there before. *)
Lemma cp_inv_comma x ws c r :
  commas_put quote_ahead x (COMMA :: ws ++ c :: r) ->
  all isspace ws -> isspace c = false -> c <> QUOTE ->
  exists y, x = COMMA :: y /\ commas_put quote_ahead y (ws ++ c :: r).
Proof.
  intros H Hws Hc Hq.
  inversion H as [|? ? ? H'|? x' (ws' & r' & Hws' & Ex') H' E1 E2]; subst.
  - eauto.
  - exfalso. destruct ws as [|w ws]; simpl in E2.
    + injection E2 as Ec _. subst c. discriminate.
    + injection E2 as _ E2. apply all_cons in Hws as [_ Hws].
      destruct (first_nonspace _ _ _ _ Hws' Hws isspace_QUOTE Hc E2)
        as (_ & Ec & _).
      congruence.
Qed.

Lemma cp_split_comma x m ws c r :
  commas_put quote_ahead x (m ++ COMMA :: ws ++ c :: r) ->
  all isspace ws -> isspace c = false -> c <> QUOTE ->
  exists mx y, x = mx ++ COMMA :: y /\
               commas_put quote_ahead y (ws ++ c :: r).
Proof.
  intros H Hws Hc Hq. remember (m ++ COMMA :: ws ++ c :: r) as x' eqn:E.
  revert m E. induction H as [|d x x' H IH|x x' HQ H IH]; intros m E.
  - destruct m; discriminate.
  - destruct m as [|e m]; simpl in E.
    + injection E as -> ->. now exists [], x.
    + injection E as -> E. destruct (IH m E) as (mx & y & -> & Hy).
      now exists (e :: mx), y.
  - destruct m as [|e m]; simpl in E.
    + exfalso. injection E as E. destruct HQ as (ws' & r' & Hws' & ->).
      destruct ws as [|w ws]; simpl in E.
      * injection E as Ec _. subst c. discriminate.
      * injection E as _ E. apply all_cons in Hws as [_ Hws].
        destruct (first_nonspace _ _ _ _ Hws' Hws isspace_QUOTE Hc E)
          as (_ & Ec & _).
        congruence.
    + injection E as <- E. destruct (IH m E) as (mx & y & Ex & Hy).
      now exists mx, y.
Qed.

Lemma double_comma_put t u :
  commas_put quote_ahead t u ->
  occurs double_comma_site u -> occurs double_comma_site t.
Proof.
  intros H (pre & s & E & ws1 & ws2 & rest & H1 & H2 & ->). rewrite E in H.
  apply cp_split_comma in H as (mx & y & -> & H);
    [|exact H1|reflexivity|discriminate].
  apply cp_run in H as (y2 & -> & H); [|now apply all_isspace_no_comma].
  apply cp_inv_comma in H as (y3 & -> & H);
    [|exact H2|reflexivity|discriminate].
  apply cp_run in H as (y4 & -> & H); [|now apply all_isspace_no_comma].
  apply cp_inv_char in H as (r & -> & H); [|discriminate].
  exists mx, (COMMA :: ws1 ++ COMMA :: ws2 ++ RBRACE :: r).
  split; [reflexivity|]. now exists ws1, ws2, r.
Qed.

Lemma trailing_comma_put Q x x' :
  commas_put Q x x' ->
  trailing_comma_site (COMMA :: x') -> trailing_comma_site (COMMA :: x).
Proof.
  intros H (g & r' & (ws & Hws & ->) & E). injection E as ->.
  rewrite <- app_assoc in H. simpl in H.
  apply cp_run in H as (y & -> & H); [|now apply all_isspace_no_comma].
  apply cp_inv_char in H as (r & -> & H); [|discriminate].
  exists (ws ++ [RBRACE]), r. split; [now exists ws|].
  now rewrite <- app_assoc.
Qed.

Lemma no_trailing_then ws c r :
  all isspace ws -> isspace c = false -> c <> RBRACE ->
  ~ trailing_comma_site (COMMA :: ws ++ c :: r).
Proof.
  intros Hws Hc Hb (g & rest & (ws' & Hws' & ->) & E). injection E as E.
  rewrite <- app_assoc in E. simpl in E.
  apply first_nonspace in E as (_ & Ec & _); auto.
Qed.

Lemma prefix_before_quote ws key z r :
  all isspace ws -> key ++ QUOTE :: z = ws ++ RBRACE :: r ->
  exists k2, key = ws ++ RBRACE :: k2.
Proof.
  revert key. induction ws as [|w ws IH]; intros key Hws E; simpl in E.
  - destruct key as [|k key]; simpl in E; [discriminate|].
    injection E as -> _. now exists key.
  - apply all_cons in Hws as [Hw Hws].
    destruct key as [|k key]; simpl in E.
    + injection E as <- _. discriminate.
    + injection E as -> E. destruct (IH key Hws E) as (k2 & ->).
      now exists k2.
Qed.

(** Whether a comma inside a key is a trailing comma is settled before
    the key ends. *)
Lemma no_trailing_key key y z :
  ~ occurs trailing_comma_site (key ++ QUOTE :: y) ->
  ~ occurs trailing_comma_site (QUOTE :: z) ->
  ~ occurs trailing_comma_site (key ++ QUOTE :: z).
Proof.
  intros Hy Hz. induction key as [|k key IH]; [exact Hz|]. simpl.
  apply not_occurs_cons.
  - intros Hs. apply Hy, occurs_here.
    pose proof (trailing_comma_site_head Hs) as ->.
    destruct Hs as (g & rest & (ws & Hws & ->) & E). injection E as E.
    rewrite <- app_assoc in E. simpl in E.
    destruct (@prefix_before_quote ws key z rest Hws E) as (k2 & ->).
    exists (ws ++ [RBRACE]), (k2 ++ QUOTE :: y). split; [now exists ws|].
    simpl. now repeat (rewrite <- app_assoc; simpl).
  - apply IH. intros H. apply Hy. simpl. now apply occurs_cons.
Qed.

(** The comma-adding substitution makes no trailing comma. *)
Lemma insert_commas_no_trailing v :
  ~ occurs trailing_comma_site v ->
  ~ occurs trailing_comma_site (insert_commas v).
Proof.
  apply (insert_commas_ind
    (fun v out => ~ occurs trailing_comma_site v ->
                  ~ occurs trailing_comma_site out)).
  - intros _. apply no_trailing_nil.
  - intros c s E IH Hv. apply not_occurs_cons.
    + intros Hs. apply Hv, occurs_here.
      pose proof (trailing_comma_site_head Hs) as ->.
      revert Hs. apply trailing_comma_put with (Q := quote_ahead).
      apply inserted_commas_put, insert_commas_inserted.
    + apply IH. intros H. apply Hv. now apply occurs_cons.
  - intros s g1 g2 rest E IH Hv.
    apply brace_key_spec in E as ((ws1 & _ & Hws1 & ->)
      & (ws2 & o & _ & Hws2 & (key & ws3 & ws4 & Hne & Hq & Hws3 & Hws4 & ->) & ->)
      & ->).
    repeat (rewrite <- app_assoc in Hv; simpl in Hv).
    repeat (rewrite <- app_assoc; simpl).
    assert (Hrest : ~ occurs trailing_comma_site (insert_commas rest)).
    { apply IH.
      apply (@not_occurs_tail trailing_comma_site
               (ws1 ++ RBRACE :: LF :: ws2 ++ QUOTE :: key ++ QUOTE
                  :: ws3 ++ COLON :: ws4 ++ [LBRACE])).
      now repeat (rewrite <- app_assoc; simpl). }
    assert (Hkey : ~ occurs trailing_comma_site
                     (key ++ QUOTE :: ws3 ++ COLON :: ws4 ++ LBRACE :: rest)).
    { apply (@not_occurs_tail trailing_comma_site
               (ws1 ++ RBRACE :: LF :: ws2 ++ [QUOTE])).
      now repeat (rewrite <- app_assoc; simpl). }
    apply no_trailing_chars; [now apply all_isspace_no_comma|].
    apply (@no_trailing_chars [RBRACE]); [simpl; intuition discriminate|].
    apply not_occurs_cons.
    { change (LF :: ws2 ++ QUOTE :: ?x) with ((LF :: ws2) ++ QUOTE :: x).
      apply no_trailing_then; [|reflexivity|discriminate].
      apply all_cons. auto. }
    apply (@no_trailing_chars [LF]); [simpl; intuition discriminate|].
    apply no_trailing_chars; [now apply all_isspace_no_comma|].
    apply (@no_trailing_chars [QUOTE]); [simpl; intuition discriminate|].
    simpl. apply no_trailing_key with
      (y := ws3 ++ COLON :: ws4 ++ LBRACE :: rest); [exact Hkey|].
    apply (@no_trailing_chars [QUOTE]); [simpl; intuition discriminate|].
    apply no_trailing_chars; [now apply all_isspace_no_comma|].
    apply (@no_trailing_chars [COLON]); [simpl; intuition discriminate|].
    apply no_trailing_chars; [now apply all_isspace_no_comma|].
    apply (@no_trailing_chars [LBRACE]); [simpl; intuition discriminate|].
    exact Hrest.
Qed.

(** The line loop puts its commas before line feeds that are followed by
    white space and a quote. *)
Lemma fix_lines_put lines :
  commas_put quote_ahead (join [LF] lines) (join [LF] (fix_lines lines)).
Proof.
  induction lines as [|l ls IH]; [constructor|].
  destruct ls as [|next ls'].
  - simpl. unfold fix_line. rewrite andb_false_r. apply cp_refl.
  - cbn [fix_lines] in *.
    rewrite (@join_cons [LF] l (next :: ls')) by discriminate.
    rewrite (@join_cons [LF] (fix_line l (next :: ls'))
               (fix_line next ls' :: fix_lines ls')) by discriminate.
    cbn [app].
    unfold fix_line at 1. destruct (closes l) eqn:Ec; cbn [andb].
    + destruct (opens next) eqn:Eo; cbn [andb].
      * rewrite <- app_assoc. cbn [app]. apply cp_app. apply cp_comma.
        -- apply opens_spec in Eo as (ws & o & r & Hws & Ho & ->).
           destruct (key_opening_head Ho) as (q & ->).
           unfold fix_line.
           match goal with |- context [if ?b then _ else _] => destruct b end.
           ++ destruct ls' as [|l3 ls'].
              ** exists ws, (q ++ r ++ [COMMA]). split; [exact Hws|].
                 simpl. now repeat (rewrite <- app_assoc; simpl).
              ** rewrite join_cons by discriminate.
                 exists ws, (q ++ r ++ [COMMA] ++ [LF]
                               ++ join [LF] (fix_lines (l3 :: ls'))).
                 split; [exact Hws|].
                 now repeat (rewrite <- app_assoc; simpl).
           ++ destruct ls' as [|l3 ls'].
              ** exists ws, (q ++ r). split; [exact Hws|].
                 simpl. now repeat (rewrite <- app_assoc; simpl).
              ** rewrite join_cons by discriminate.
                 exists ws, (q ++ r ++ [LF]
                               ++ join [LF] (fix_lines (l3 :: ls'))).
                 split; [exact Hws|].
                 now repeat (rewrite <- app_assoc; simpl).
        -- apply cp_keep. exact IH.
      * apply cp_app, cp_keep. exact IH.
    + apply cp_app, cp_keep. exact IH.
Qed.

Lemma append_commas_put t : commas_put quote_ahead t (append_commas t).
Proof.
  unfold append_commas. rewrite <- (join_split LF t) at 1.
  apply fix_lines_put.
Qed.

(** After the comprehensive repair none of its three passes finds
    anything to do, on texts whose keys lie on one line and that hold no
    two commas before one closing brace. *)
Lemma comprehensive_settled t :
  single_line_keys t -> ~ occurs double_comma_site t ->
  fix_json_comprehensive
    (insert_commas (remove_commas (append_commas t))) =
  Ok (insert_commas (remove_commas (append_commas t))).
Proof.
  intros Hk Hd.
  pose proof (append_commas_put t) as HL.
  assert (Hk1 : single_line_keys (append_commas t))
    by (revert Hk; now apply single_line_keys_put with (Q := quote_ahead)).
  assert (Hd1 : ~ occurs double_comma_site (append_commas t))
    by (intros H; apply Hd; revert H; now apply double_comma_put).
  assert (Hk2 : single_line_keys (remove_commas (append_commas t)))
    by now apply single_line_keys_cleaned.
  assert (Ha2 : ~ occurs line_site (remove_commas (append_commas t))).
  { intros H. apply line_site_cleaned in H.
    now apply (append_commas_settled t). }
  assert (Ht2 : ~ occurs trailing_comma_site
                  (remove_commas (append_commas t)))
    by now apply remove_commas_settled.
  apply comprehensive_noop.
  - intros H. apply adjacent_site_flat in H. apply Ha2.
    revert H. apply line_site_put with (Q := quote_ahead).
    apply inserted_commas_put, insert_commas_inserted.
  - now apply insert_commas_no_trailing.
  - now apply insert_commas_settled.
Qed.

(** *** Looking for keys over several lines and for double commas *)

Lemma multi_line_keyb_complete key o post :
  key_opening_of key o -> In LF key -> multi_line_keyb (o ++ post) = true.
Proof.
  intros Ho Hin. pose proof Ho as (ws1 & ws2 & Hne & Hk & H1 & H2 & ->).
  unfold multi_line_keyb. cbn [app]. rewrite char_eqb_refl.
  replace (key_open (QUOTE :: (key ++ QUOTE :: ws1 ++ COLON :: ws2 ++ [LBRACE])
                       ++ post)) with (Some post).
  2:{ symmetry. apply key_open_spec.
      exists (QUOTE :: key ++ QUOTE :: ws1 ++ COLON :: ws2 ++ [LBRACE]).
      split; [now exists key|reflexivity]. }
  rewrite <- app_assoc. cbn [app].
  rewrite take_while_app, take_while_stop, app_nil_r by (auto; reflexivity).
  simpl. apply existsb_exists. exists LF. split; [exact Hin|reflexivity].
Qed.

Lemma single_line_keys_check t :
  any_suffix multi_line_keyb t = false -> single_line_keys t.
Proof.
  intros H pre key o post E Ho Hin.
  assert (Ht : any_suffix multi_line_keyb t = true); [|congruence].
  apply (any_suffix_spec (fun s => multi_line_keyb s = true));
    [tauto|].
  exists pre, (o ++ post). split; [exact E|].
  now apply multi_line_keyb_complete with (key := key).
Qed.

Lemma double_commab_spec s : double_commab s = true <-> double_comma_site s.
Proof.
  unfold double_commab. split.
  - destruct s as [|c s1]; [discriminate|].
    rewrite andb_true_iff, char_eqb_eq. intros [-> H].
    destruct (drop_while isspace s1) as [|d s2] eqn:E1; [discriminate|].
    apply andb_true_iff in H as [Hd H]. apply char_eqb_eq in Hd. subst d.
    destruct (drop_while isspace s2) as [|e s3] eqn:E2; [discriminate|].
    apply char_eqb_eq in H. subst e.
    exists (take_while isspace s1), (take_while isspace s2), s3.
    split; [apply all_take_while|]. split; [apply all_take_while|].
    rewrite <- E2, take_drop_while, <- E1, take_drop_while. reflexivity.
  - intros (ws1 & ws2 & rest & H1 & H2 & ->).
    rewrite char_eqb_refl, drop_while_all_stops by (auto; reflexivity).
    rewrite char_eqb_refl, drop_while_all_stops by (auto; reflexivity).
    reflexivity.
Qed.

Lemma has_double_comma t :
  any_suffix double_commab t = true <-> occurs double_comma_site t.
Proof. apply any_suffix_spec, double_commab_spec. Qed.

(** *** Following a text through the comma-adding passes *)

Lemma cp_fwd_char Q c x z :
  commas_put Q (c :: x) z -> c <> LF ->
  exists z', z = c :: z' /\ commas_put Q x z'.
Proof. intros H Hc. inversion H; subst; [eauto|congruence]. Qed.

Lemma cp_fwd_lf Q x z :
  commas_put Q (LF :: x) z ->
  (exists z', z = LF :: z' /\ commas_put Q x z') \/
  (exists z', z = COMMA :: LF :: z' /\ Q z' /\ commas_put Q x z').
Proof.
  intros H. inversion H as [|? ? ? H'|? z' HQ H' E1 E2]; subst.
  - left. eauto.
  - right. exists z'. repeat split; auto.
    inversion H'; subst. assumption.
Qed.

(** White space before a closing brace gets no comma. *)
Lemma cp_fwd_site ws y z :
  commas_put quote_ahead (ws ++ RBRACE :: y) z -> all isspace ws ->
  exists y', z = ws ++ RBRACE :: y' /\ commas_put quote_ahead y y'.
Proof.
  revert z. induction ws as [|w ws IH]; intros z H Hws; simpl in H.
  - apply cp_fwd_char in H as (z' & -> & H); [|discriminate].
    exists z'. split; [reflexivity|exact H].
  - apply all_cons in Hws as [Hw Hws].
    assert (Hkeep : forall z', commas_put quote_ahead (ws ++ RBRACE :: y) z' ->
              exists y', w :: z' = (w :: ws) ++ RBRACE :: y' /\
                         commas_put quote_ahead y y').
    { intros z' H'. destruct (IH z' H' Hws) as (y' & -> & Hy).
      exists y'. split; [reflexivity|exact Hy]. }
    destruct (N.eq_dec w LF) as [->|Hn].
    + apply cp_fwd_lf in H as [(z' & -> & H)|(z' & -> & HQ & H)].
      * now apply Hkeep.
      * exfalso. destruct (IH z' H Hws) as (y' & -> & _).
        destruct HQ as (wq & r & Hwq & E).
        apply first_nonspace in E as (_ & E & _); auto. discriminate.
    + apply cp_fwd_char in H as (z' & -> & H); [|exact Hn].
      now apply Hkeep.
Qed.

(** The text before such white space is followed on its own. *)
Lemma cp_fwd_before x ws y z :
  commas_put quote_ahead (x ++ ws ++ RBRACE :: y) z -> all isspace ws ->
  exists x' y',
    z = x' ++ ws ++ RBRACE :: y' /\
    commas_put anything x x' /\ commas_put quote_ahead y y'.
Proof.
  revert z. induction x as [|c x IH]; intros z H Hws; simpl in H.
  - destruct (@cp_fwd_site _ _ _ H Hws) as (y' & -> & Hy).
    exists [], y'. repeat split; [constructor|exact Hy].
  - destruct (N.eq_dec c LF) as [->|Hn].
    + apply cp_fwd_lf in H as [(z' & -> & H)|(z' & -> & HQ & H)];
        destruct (IH z' H Hws) as (x' & y' & -> & Hx & Hy).
      * exists (LF :: x'), y'. repeat split; [now constructor|exact Hy].
      * exists (COMMA :: LF :: x'), y'. repeat split; [|exact Hy].
        apply cp_comma; [exact I|now constructor].
    + apply cp_fwd_char in H as (z' & -> & H); [|exact Hn].
      destruct (IH z' H Hws) as (x' & y' & -> & Hx & Hy).
      exists (c :: x'), y'. repeat split; [now constructor|exact Hy].
Qed.

Lemma cp_fwd_snoc a c z :
  commas_put anything (a ++ [c]) z -> c <> LF ->
  exists a', z = a' ++ [c] /\ commas_put anything a a'.
Proof.
  revert z. induction a as [|d a IH]; intros z H Hc; simpl in H.
  - apply cp_fwd_char in H as (z' & -> & H); [|exact Hc].
    inversion H; subst. exists []. split; [reflexivity|constructor].
  - destruct (N.eq_dec d LF) as [->|Hn].
    + apply cp_fwd_lf in H as [(z' & -> & H)|(z' & -> & HQ & H)];
        destruct (IH z' H Hc) as (a' & -> & Ha).
      * exists (LF :: a'). split; [reflexivity|now constructor].
      * exists (COMMA :: LF :: a'). split; [reflexivity|].
        apply cp_comma; [exact I|now constructor].
    + apply cp_fwd_char in H as (z' & -> & H); [|exact Hn].
      destruct (IH z' H Hc) as (a' & -> & Ha).
      exists (d :: a'). split; [reflexivity|now constructor].
Qed.

(** The comprehensive repair at a comma that stands before white space and
    a closing brace: the white space and the brace come out directly
    behind what the three passes make of the text before the comma. *)
Lemma comprehensive_at_site pre ws post :
  all isspace ws ->
  exists looped before after,
    commas_put anything pre looped /\
    commas_put anything (remove_commas looped) before /\
    fix_json_comprehensive (pre ++ COMMA :: ws ++ RBRACE :: post) =
      Ok (before ++ ws ++ RBRACE :: after).
Proof.
  intros Hws. rewrite fix_json_comprehensive_eq.
  pose proof (append_commas_put (pre ++ COMMA :: ws ++ RBRACE :: post)) as HL.
  replace (pre ++ COMMA :: ws ++ RBRACE :: post)
    with ((pre ++ [COMMA]) ++ ws ++ RBRACE :: post) in HL at 1
    by (now rewrite <- app_assoc).
  destruct (@cp_fwd_before _ _ _ _ HL Hws) as (x' & post1 & E & Hx & _).
  apply cp_fwd_snoc in Hx as (looped & -> & Hpre); [|discriminate].
  rewrite E, <- app_assoc. cbn [app].
  rewrite remove_commas_at_site by exact Hws.
  pose proof (inserted_commas_put
                (insert_commas_inserted
                   (remove_commas looped ++ ws ++ RBRACE :: remove_commas post1)))
    as HS.
  destruct (@cp_fwd_before _ _ _ _ HS Hws) as (before & after & -> & Hb & _).
  now exists looped, before, after.
Qed.

Lemma split_length sep x :
  length (split sep x) = S (count_occ N.eq_dec x sep).
Proof.
  induction x as [|c x IH]; [reflexivity|]. simpl.
  destruct (char_eqb c sep) eqn:E.
  - apply char_eqb_eq in E. subst c.
    destruct (N.eq_dec sep sep); [|congruence]. simpl. now rewrite IH.
  - apply char_eqb_neq in E.
    destruct (N.eq_dec c sep); [congruence|].
    destruct (split sep x) as [|l ls] eqn:Es;
      [now apply split_not_nil in Es|].
    simpl in *. exact IH.
Qed.

Lemma strip_parts s :
  exists ws1 ws2,
    all isspace ws1 /\ all isspace ws2 /\ s = ws1 ++ strip s ++ ws2.
Proof.
  unfold strip, rstrip. rewrite !lstrip_drop_while.
  set (a := drop_while isspace s).
  exists (take_while isspace s), (rev (take_while isspace (rev a))).
  split; [apply all_take_while|]. split; [apply all_rev, all_take_while|].
  rewrite <- rev_app_distr, take_drop_while, rev_involutive.
  apply eq_sym, take_drop_while.
Qed.

Lemma strip_last s : stops isspace (rev (strip s)).
Proof.
  unfold strip, rstrip. rewrite rev_involutive, !lstrip_drop_while.
  apply stops_drop_while.
Qed.

Lemma strip_first s : stops isspace (strip s).
Proof.
  pose proof (stops_drop_while isspace s) as H.
  unfold strip, rstrip. rewrite !lstrip_drop_while.
  set (a := drop_while isspace s) in *.
  assert (E : a = rev (drop_while isspace (rev a))
                    ++ rev (take_while isspace (rev a))).
  { rewrite <- rev_app_distr, take_drop_while. now rewrite rev_involutive. }
  destruct (rev (drop_while isspace (rev a))) as [|c x]; [exact I|].
  rewrite E in H. exact H.
Qed.

Lemma rep_inv p s k x :
  rep p s k = Some x -> exists m s', s = m ++ s' /\ k s' = Some x.
Proof.
  revert x. induction s as [|c s IH]; intros x; simpl.
  - intros H. now exists [], [].
  - destruct (p c).
    + destruct (rep p s k) as [r|] eqn:E.
      * intros [= <-]. destruct (IH r eq_refl) as (m & s' & -> & H).
        now exists (c :: m), s'.
      * intros H. now exists [], (c :: s).
    + intros H. now exists [], (c :: s).
Qed.

Lemma exec_inv r : forall s caps k x,
  exec r s caps k = Some x ->
  exists m s' caps', s = m ++ s' /\ k s' caps' = Some x.
Proof.
  induction r as [|cs|cs|cs|r1 IH1 r2 IH2|n r1 IH1]; intros s caps k x; simpl.
  - intros H. now exists [], s, caps.
  - destruct s as [|c s]; [discriminate|].
    destruct (cset_match cs c); [|discriminate].
    intros H. now exists [c], s, caps.
  - intros H. apply rep_inv in H as (m & s' & -> & H). now exists m, s', caps.
  - destruct s as [|c s]; [discriminate|].
    destruct (cset_match cs c); [|discriminate].
    intros H. apply rep_inv in H as (m & s' & -> & H).
    now exists (c :: m), s', caps.
  - intros H. apply IH1 in H as (m1 & s1 & caps1 & -> & H).
    apply IH2 in H as (m2 & s2 & caps2 & -> & H).
    exists (m1 ++ m2), s2, caps2. now rewrite <- app_assoc.
  - intros H. apply IH1 in H as (m1 & s1 & caps1 & -> & H). eauto.
Qed.

Lemma count_without_commas t :
  count_occ N.eq_dec (without_commas t) LF = count_occ N.eq_dec t LF.
Proof.
  induction t as [|c t IH]; [reflexivity|]. simpl.
  destruct (char_eqb c COMMA) eqn:E; simpl.
  - apply char_eqb_eq in E. subst c.
    destruct (N.eq_dec COMMA LF); [discriminate|exact IH].
  - destruct (N.eq_dec c LF); now rewrite IH.
Qed.

Lemma same_line_count t u :
  without_commas u = without_commas t ->
  length (split LF u) = length (split LF t).
Proof.
  intros H. rewrite !split_length. f_equal.
  now rewrite <- (count_without_commas u), H, count_without_commas.
Qed.

Lemma no_lf_no_site t : ~ In LF t -> ~ occurs brace_key_site t.
Proof.
  intros H (pre & s & -> & g1 & g2 & rest & _ & _ & ->). apply H.
  apply in_or_app. right. apply in_or_app. right. now left.
Qed.

Lemma no_lf_removed t u : removed_before_brace t u -> ~ In LF t -> ~ In LF u.
Proof.
  intros H Hn Hin. apply Hn. now apply (rbb_in H (c := LF)).
Qed.

(** * The claims of the specification *)

(** C1, as stated, fails: [blank_between] has no pair of adjacent lines
    that form a repair site, and both variants change it. *)
Lemma no_site_yet_changed :
  repair_site_free blank_between /\
  fix_json_syntax blank_between <> blank_between /\
  fix_json_comprehensive blank_between <> Ok blank_between.
Proof.
  split; [|split].
  - unfold repair_site_free. rewrite <- any_adjacent_spec.
    vm_compute. discriminate.
  - vm_compute. discriminate.
  - vm_compute. discriminate.
Qed.

(** C1, amended: a text in which the comma-adding pattern matches nowhere
    (white space, closing brace, line feed, white space that may hold
    further line feeds, quoted key, colon, opening brace) is returned
    unchanged by the basic variant; the comprehensive variant returns it
    unchanged when, in addition, no two adjacent lines pass the tests of
    its line loop and no comma stands before optional white space and a
    closing brace. *)
Theorem unchanged_without_sites (t : text) :
  ~ occurs brace_key_site t ->
  fix_json_syntax t = t /\
  (repair_site_free t -> ~ occurs trailing_comma_site t ->
   fix_json_comprehensive t = Ok t).
Proof.
  intros HS. split.
  - now apply insert_commas_noop.
  - intros HA HT. now apply comprehensive_noop.
Qed.

Lemma unchanged_without_sites_witness :
  ~ occurs brace_key_site two_blocks_repaired /\
  repair_site_free two_blocks_repaired /\
  ~ occurs trailing_comma_site two_blocks_repaired /\
  fix_json_syntax two_blocks_repaired = two_blocks_repaired /\
  fix_json_comprehensive two_blocks_repaired = Ok two_blocks_repaired.
Proof.
  assert (HS : ~ occurs brace_key_site two_blocks_repaired).
  { rewrite <- has_brace_key_site. vm_compute. discriminate. }
  assert (HA : repair_site_free two_blocks_repaired).
  { unfold repair_site_free. rewrite <- any_adjacent_spec. vm_compute. discriminate. }
  assert (HT : ~ occurs trailing_comma_site two_blocks_repaired).
  { rewrite <- has_trailing_comma_site. vm_compute. discriminate. }
  destruct (unchanged_without_sites HS) as [H1 H2].
  repeat split; auto.
Defined.

(** C2, as stated, fails for both variants: the basic repair of
    [key_over_lines] is changed again by a second run, and the
    comprehensive repair takes one comma of [two_commas] at each run. *)
Lemma repair_twice_differs :
  fix_json_syntax (fix_json_syntax key_over_lines)
    <> fix_json_syntax key_over_lines /\
  fix_json_comprehensive two_commas = Ok [COMMA; RBRACE] /\
  fix_json_comprehensive [COMMA; RBRACE] = Ok [RBRACE].
Proof.
  split; [|split].
  - vm_compute. discriminate.
  - vm_compute. reflexivity.
  - vm_compute. reflexivity.
Qed.

(** C2, amended: on every text in which each quoted key that opens an
    object lies on one line, the basic variant applied twice gives what it
    gives applied once; so does the comprehensive variant, trailing-comma
    cleanup included, when in addition the text holds no two commas,
    separated by white space at most, before one closing brace. *)
Theorem repair_twice (t : text) :
  single_line_keys t ->
  fix_json_syntax (fix_json_syntax t) = fix_json_syntax t /\
  (~ occurs double_comma_site t ->
   exists fixed,
     fix_json_comprehensive t = Ok fixed /\
     fix_json_comprehensive fixed = Ok fixed).
Proof.
  intros Hk. split.
  - now apply insert_commas_twice.
  - intros Hd. exists (insert_commas (remove_commas (append_commas t))).
    split; [apply fix_json_comprehensive_eq|].
    now apply comprehensive_settled.
Qed.

Lemma repair_twice_witness :
  single_line_keys two_blocks /\
  ~ occurs double_comma_site two_blocks /\
  fix_json_syntax (fix_json_syntax two_blocks) = fix_json_syntax two_blocks /\
  exists fixed,
    fix_json_comprehensive two_blocks = Ok fixed /\
    fix_json_comprehensive fixed = Ok fixed.
Proof.
  assert (Hk : single_line_keys two_blocks).
  { apply single_line_keys_check. vm_compute. reflexivity. }
  assert (Hd : ~ occurs double_comma_site two_blocks).
  { rewrite <- has_double_comma. vm_compute. discriminate. }
  destruct (repair_twice Hk) as [H1 H2].
  split; [exact Hk|]. split; [exact Hd|]. split; [exact H1|exact (H2 Hd)].
Defined.

(** C3: on the example of the specification both variants append one comma
    to the line of the first closing brace and change nothing else. *)
Theorem example_repaired :
  fix_json_syntax two_blocks = two_blocks_repaired /\
  fix_json_comprehensive two_blocks = Ok two_blocks_repaired.
Proof. split; vm_compute; reflexivity. Qed.

(** C4: a text in which no closing brace is followed, after white space
    only, by a key opening (every such brace already has its comma) and in
    which no comma stands before a closing brace is returned unchanged by
    both variants: no second comma is added anywhere. *)
Theorem separated_unchanged (t : text) :
  ~ occurs brace_then_key t ->
  ~ occurs trailing_comma_site t ->
  fix_json_syntax t = t /\ fix_json_comprehensive t = Ok t.
Proof.
  intros HB HT.
  assert (HS : ~ occurs brace_key_site t)
    by (intros H; now apply HB, brace_key_site_brace_then_key).
  split.
  - now apply insert_commas_noop.
  - apply comprehensive_noop; auto.
    intros H. now apply HB, adjacent_site_brace_then_key.
Qed.

Lemma separated_unchanged_witness :
  ~ occurs brace_then_key two_blocks_repaired /\
  ~ occurs trailing_comma_site two_blocks_repaired /\
  fix_json_syntax two_blocks_repaired = two_blocks_repaired /\
  fix_json_comprehensive two_blocks_repaired = Ok two_blocks_repaired.
Proof.
  assert (HB : ~ occurs brace_then_key two_blocks_repaired).
  { rewrite <- has_brace_then_key. vm_compute. discriminate. }
  assert (HT : ~ occurs trailing_comma_site two_blocks_repaired).
  { rewrite <- has_trailing_comma_site. vm_compute. discriminate. }
  split; [exact HB|]. split; [exact HT|].
  exact (separated_unchanged HB HT).
Defined.

(** C5: a comma that stands before optional white space (line feeds
    included) and a closing brace is removed by the comprehensive variant.
    In its output the white space and the brace stand directly behind
    [before], which is what the three passes make of the text before the
    comma alone: the line loop and the last substitution put commas before
    line feeds of it, the cleanup substitution works on it as on a text of
    its own.  The cleanup substitution deletes the comma whatever
    surrounds it, and the example of the specification is rewritten as
    stated. *)
Theorem trailing_comma_removed :
  (forall pre ws post,
      all isspace ws ->
      exists looped before after,
        commas_put anything pre looped /\
        commas_put anything
          (re_sub pat_trailing_comma keep_brace looped) before /\
        fix_json_comprehensive (pre ++ COMMA :: ws ++ RBRACE :: post) =
          Ok (before ++ ws ++ RBRACE :: after)) /\
  (forall pre ws post,
      all isspace ws ->
      re_sub pat_trailing_comma keep_brace
             (pre ++ COMMA :: ws ++ RBRACE :: post) =
      re_sub pat_trailing_comma keep_brace pre
        ++ ws ++ RBRACE :: re_sub pat_trailing_comma keep_brace post) /\
  fix_json_comprehensive trailing = Ok trailing_repaired.
Proof.
  split; [|split].
  - intros pre ws post Hws. now apply comprehensive_at_site.
  - intros pre ws post Hws. now apply remove_commas_at_site.
  - vm_compute. reflexivity.
Qed.

Lemma trailing_comma_removed_witness :
  all isspace [LF; 32%N] /\
  (exists looped before after,
      commas_put anything [COMMA] looped /\
      commas_put anything
        (re_sub pat_trailing_comma keep_brace looped) before /\
      fix_json_comprehensive
        ([COMMA] ++ COMMA :: [LF; 32%N] ++ RBRACE :: [COMMA; RBRACE]) =
        Ok (before ++ [LF; 32%N] ++ RBRACE :: after)) /\
  re_sub pat_trailing_comma keep_brace
         ([COMMA] ++ COMMA :: [LF; 32%N] ++ RBRACE :: [COMMA; RBRACE]) =
  re_sub pat_trailing_comma keep_brace [COMMA]
    ++ [LF; 32%N] ++ RBRACE
    :: re_sub pat_trailing_comma keep_brace [COMMA; RBRACE].
Proof.
  split; [reflexivity|]. split.
  - apply (proj1 trailing_comma_removed [COMMA] [LF; 32%N] [COMMA; RBRACE]).
    reflexivity.
  - apply (proj1 (proj2 trailing_comma_removed)
             [COMMA] [LF; 32%N] [COMMA; RBRACE]).
    reflexivity.
Defined.

(** C6: the line loop returns as many lines as it was given; line [i]
    gets a comma appended exactly when its trimmed content ends with a
    closing brace and line [i + 1] exists and begins, after optional white
    space, with a quoted key, a colon and an opening brace; every other
    line is returned as it is. *)
Theorem line_loop_comma_iff (content : text) (i : nat) (line : text) :
  nth_error (split LF content) i = Some line ->
  exists fixed_lines,
    line_loop (length (split LF content)) (split LF content) 0 [] =
      Ok fixed_lines /\
    length fixed_lines = length (split LF content) /\
    ((comma_due (split LF content) i line /\
      nth_error fixed_lines i = Some (line ++ [COMMA])) \/
     (~ comma_due (split LF content) i line /\
      nth_error fixed_lines i = Some line)).
Proof.
  intros Hi. exists (fix_lines (split LF content)).
  split; [now rewrite line_loop_ok by lia|].
  split; [apply fix_lines_length|].
  rewrite (fix_lines_nth _ _ Hi).
  destruct (fix_line_cases (split LF content) i line) as [[H ->]|[H ->]]; auto.
Qed.

Lemma line_loop_comma_iff_witness :
  nth_error (split LF two_blocks) 2 = Some (closing 4) /\
  exists fixed_lines,
    line_loop (length (split LF two_blocks)) (split LF two_blocks) 0 [] =
      Ok fixed_lines /\
    length fixed_lines = length (split LF two_blocks) /\
    ((comma_due (split LF two_blocks) 2 (closing 4) /\
      nth_error fixed_lines 2 = Some (closing 4 ++ [COMMA])) \/
     (~ comma_due (split LF two_blocks) 2 (closing 4) /\
      nth_error fixed_lines 2 = Some (closing 4))).
Proof.
  split; [reflexivity|].
  apply (@line_loop_comma_iff two_blocks 2 (closing 4)). reflexivity.
Defined.

(** C7, as stated, fails: in [blank_between] the closing-brace line and
    the key-opening line are separated by an empty line, which is no
    key-opening line, and both variants put a comma behind the brace. *)
Lemma comma_across_blank_line :
  split LF blank_between = [closing 1; []; opening 1 "k"] /\
  closing_brace_line (closing 1) /\
  ~ key_opening_line [] /\
  key_opening_line (opening 1 "k") /\
  fix_json_syntax blank_between =
    join [LF] [closing 1 ++ [COMMA]; []; opening 1 "k"] /\
  fix_json_comprehensive blank_between =
    Ok (join [LF] [closing 1 ++ [COMMA]; []; opening 1 "k"]).
Proof.
  split; [reflexivity|]. split; [now apply closes_spec|].
  split; [now apply opens_false|]. split; [now apply opens_spec|].
  split; vm_compute; reflexivity.
Qed.

(** C7, amended: the substitution of the basic variant, which is also the
    last pass of the comprehensive variant, puts a comma only behind a
    closing brace that has white space before it and is followed by a line
    feed, white space and a key opening; that white space may hold further
    line feeds, so empty lines may stand between the two.  Only the line
    loop of the comprehensive variant is bound to adjacent lines: it
    appends a comma only to a closing-brace line directly followed by a
    key-opening line. *)
Theorem commas_only_at_sites (content : text) :
  inserted_at_sites content (fix_json_syntax content) /\
  exists lines cleaned fixed,
    appended_to_lines (split LF content) lines /\
    removed_before_brace (join [LF] lines) cleaned /\
    inserted_at_sites cleaned fixed /\
    fix_json_comprehensive content = Ok fixed.
Proof.
  split; [apply insert_commas_inserted|].
  exists (fix_lines (split LF content)),
    (remove_commas (append_commas content)),
    (insert_commas (remove_commas (append_commas content))).
  split; [apply fix_lines_appended|].
  split; [apply remove_commas_removed|].
  split; [apply insert_commas_inserted|apply fix_json_comprehensive_eq].
Qed.

(** C8: the basic variant only adds commas; the comprehensive variant
    only adds and deletes commas.  With the commas taken out, the output
    of either variant is the input with its commas taken out: every other
    character, line feeds and indentation included, is kept in place and
    in order. *)
Theorem only_commas_change (content : text) :
  commas_added content (fix_json_syntax content) /\
  without_commas (fix_json_syntax content) = without_commas content /\
  exists fixed,
    fix_json_comprehensive content = Ok fixed /\
    without_commas fixed = without_commas content.
Proof.
  assert (H : commas_added content (fix_json_syntax content))
    by apply inserted_commas_added, insert_commas_inserted.
  split; [exact H|]. split; [now apply without_commas_added|].
  exists (insert_commas (remove_commas (append_commas content))).
  split; [apply fix_json_comprehensive_eq|].
  rewrite (without_commas_added
             (inserted_commas_added (insert_commas_inserted _))).
  rewrite (without_commas_removed (remove_commas_removed _)).
  apply without_commas_append.
Qed.

(** C9: the comprehensive variant returns a text for every input: the
    loop never reads past the list and finishes within the iterations
    it is granted, and more iterations change nothing.  A text that no
    pattern matches comes back as it is: either variant returns its input
    unless one of its patterns matches somewhere. *)
Theorem repair_total (content : text) :
  (exists fixed, fix_json_comprehensive content = Ok fixed) /\
  (forall extra,
      line_loop (length (split LF content) + extra) (split LF content) 0 [] =
      line_loop (length (split LF content)) (split LF content) 0 []) /\
  (fix_json_syntax content = content \/ occurs brace_key_site content) /\
  (fix_json_comprehensive content = Ok content \/
   adjacent_site (split LF content) \/
   occurs trailing_comma_site content \/
   occurs brace_key_site content).
Proof.
  split; [|split; [|split]].
  - rewrite fix_json_comprehensive_eq. eauto.
  - intros extra. now rewrite !line_loop_ok by lia.
  - destruct (any_suffix (fun s => is_some (brace_key s)) content) eqn:E.
    + right. now apply has_brace_key_site.
    + left. apply insert_commas_noop. rewrite <- has_brace_key_site. congruence.
  - destruct (any_adjacent (split LF content)) eqn:EA.
    { right. left. now apply any_adjacent_spec. }
    destruct (any_suffix (fun s => is_some (trailing_comma s)) content) eqn:ET.
    { right. right. left. now apply has_trailing_comma_site. }
    destruct (any_suffix (fun s => is_some (brace_key s)) content) eqn:ES.
    { right. right. right. now apply has_brace_key_site. }
    left. apply comprehensive_noop.
    + rewrite <- any_adjacent_spec. congruence.
    + rewrite <- has_trailing_comma_site. congruence.
    + rewrite <- has_brace_key_site. congruence.
Qed.

(** C10: the test of the loop never reads past the list, it answers no
    for the last line whatever that line holds, and the loop returns the
    last line as it was given. *)
Theorem last_line_kept (content : text) :
  (forall i line, needs_comma (split LF content) i line <> IndexError) /\
  (forall line,
      needs_comma (split LF content) (length (split LF content) - 1) line =
      Ok false) /\
  exists fixed_lines,
    line_loop (length (split LF content)) (split LF content) 0 [] =
      Ok fixed_lines /\
    length fixed_lines = length (split LF content) /\
    last fixed_lines [] = last (split LF content) [].
Proof.
  split; [|split].
  - intros i line. apply needs_comma_no_error.
  - intros line. apply needs_comma_last.
  - exists (fix_lines (split LF content)).
    split; [now rewrite line_loop_ok by lia|].
    split; [apply fix_lines_length|apply fix_lines_last].
Qed.

(** * Further properties of the code *)

(** X1: splitting a text at line feeds and joining the pieces with line
    feeds gives the text back; the pieces hold no line feed and there is
    one more piece than there are line feeds, so at least one. *)
Theorem split_join_round_trip (content : text) :
  join [LF] (split LF content) = content /\
  Forall (fun line => ~ In LF line) (split LF content) /\
  length (split LF content) = S (count_occ N.eq_dec content LF).
Proof.
  split; [apply join_split|]. split; [|apply split_length].
  apply Forall_forall. intros l. apply split_lines_no_sep.
Qed.

(** X2: joining lines that hold no line feed and splitting the result
    gives the lines back, provided there is at least one line. *)
Theorem join_split_round_trip (lines : list text) :
  lines <> [] -> Forall (fun line => ~ In LF line) lines ->
  split LF (join [LF] lines) = lines.
Proof.
  intros Hne H. apply split_join; [exact Hne|].
  now apply Forall_forall.
Qed.

Lemma join_split_round_trip_witness :
  [closing 4; opening 4 "key2"] <> [] /\
  Forall (fun line => ~ In LF line) [closing 4; opening 4 "key2"] /\
  split LF (join [LF] [closing 4; opening 4 "key2"]) =
    [closing 4; opening 4 "key2"].
Proof.
  assert (Hne : [closing 4; opening 4 "key2"] <> []) by discriminate.
  assert (H : Forall (fun line => ~ In LF line) [closing 4; opening 4 "key2"]).
  { repeat constructor; vm_compute; intuition discriminate. }
  split; [exact Hne|]. split; [exact H|].
  exact (join_split_round_trip Hne H).
Defined.

(** X3: [strip] takes white space off both ends and nothing else: the
    text is white space, the stripped text, white space; the stripped text
    neither starts nor ends with a white character; stripping it again
    changes nothing. *)
Theorem strip_both_ends (s : text) :
  (exists ws1 ws2,
      all isspace ws1 /\ all isspace ws2 /\ s = ws1 ++ strip s ++ ws2) /\
  stops isspace (strip s) /\
  stops isspace (rev (strip s)) /\
  strip (strip s) = strip s.
Proof.
  split; [apply strip_parts|]. split; [apply strip_first|].
  split; [apply strip_last|].
  unfold strip at 1, rstrip. rewrite !lstrip_drop_while.
  rewrite (drop_while_stops _ _ (strip_first s)).
  rewrite (drop_while_stops _ _ (strip_last s)). apply rev_involutive.
Qed.

(** X4: the line loop run on its own output changes nothing, for every
    list of lines. *)
Theorem line_loop_twice (lines : list text) :
  exists fixed_lines,
    line_loop (length lines) lines 0 [] = Ok fixed_lines /\
    line_loop (length fixed_lines) fixed_lines 0 [] = Ok fixed_lines.
Proof.
  exists (fix_lines lines). rewrite !line_loop_ok by lia.
  split; [reflexivity|]. simpl. f_equal.
  apply fix_lines_noop. rewrite <- any_adjacent_spec.
  now rewrite fix_lines_settled.
Qed.

(** X5: whatever the pattern, a match of the matcher leaves a suffix of
    the text: the text is the matched part followed by what [re_match]
    returns as the rest. *)
Theorem re_match_suffix (r : regex) (s : text) (caps : captures) (rest : text) :
  re_match r s = Some (caps, rest) -> exists m, s = m ++ rest.
Proof.
  unfold re_match. intros H.
  apply exec_inv in H as (m & s' & caps' & -> & [= _ <-]). now exists m.
Qed.

Lemma re_match_suffix_witness :
  re_match pat_trailing_comma [COMMA; LF; RBRACE; LF] =
    Some ([(1, [LF; RBRACE])], [LF]) /\
  exists m, [COMMA; LF; RBRACE; LF] = m ++ [LF].
Proof.
  assert (H : re_match pat_trailing_comma [COMMA; LF; RBRACE; LF] =
              Some ([(1, [LF; RBRACE])], [LF])) by reflexivity.
  split; [exact H|]. exact (re_match_suffix _ _ H).
Defined.

(** X6: no pattern of the scripts matches the empty text: a match of any
    of the three leaves strictly less than it was given, so a
    substitution always moves on. *)
Theorem matches_not_empty (s : text) :
  match re_match pat_key_open s with
  | Some (_, rest) => length rest < length s
  | None => True
  end /\
  match re_match pat_brace_key s with
  | Some (_, rest) => length rest < length s
  | None => True
  end /\
  match re_match pat_trailing_comma s with
  | Some (_, rest) => length rest < length s
  | None => True
  end.
Proof.
  split; [|split].
  - rewrite re_match_key_open.
    destruct (key_open (drop_while isspace s)) as [rest|] eqn:E; [|exact I].
    apply key_open_spec in E as (o & Ho & E).
    destruct (key_opening_head Ho) as (q & ->).
    pose proof (drop_while_length isspace s) as Hl.
    rewrite E in Hl. simpl in Hl. rewrite length_app in Hl. lia.
  - rewrite re_match_brace_key'.
    destruct (brace_key s) as [[[g1 g2] rest]|] eqn:E; [|exact I].
    apply brace_key_spec in E as (_ & _ & ->).
    rewrite !length_app. simpl. rewrite length_app. lia.
  - rewrite re_match_trailing_comma'.
    destruct (trailing_comma s) as [[g rest]|] eqn:E; [|exact I].
    apply trailing_comma_spec in E as (_ & ->).
    simpl. rewrite length_app. lia.
Qed.

(** X7: after the cleanup substitution no comma stands before optional
    white space and a closing brace, provided the text held no two commas
    before one closing brace. *)
Theorem cleanup_complete (u : text) :
  ~ occurs double_comma_site u ->
  ~ occurs trailing_comma_site (re_sub pat_trailing_comma keep_brace u).
Proof. apply remove_commas_settled. Qed.

Lemma cleanup_complete_witness :
  ~ occurs double_comma_site trailing /\
  ~ occurs trailing_comma_site (re_sub pat_trailing_comma keep_brace trailing).
Proof.
  assert (H : ~ occurs double_comma_site trailing).
  { rewrite <- has_double_comma. vm_compute. discriminate. }
  split; [exact H|exact (cleanup_complete H)].
Defined.

(** X8: after the basic repair the comma-adding pattern matches at no
    position of the result, provided every quoted key that opens an object
    lies on one line. *)
Theorem basic_repair_complete (t : text) :
  single_line_keys t ->
  forall pre s,
    fix_json_syntax t = pre ++ s -> re_match pat_brace_key s = None.
Proof.
  intros Hk pre s E. rewrite re_match_brace_key'.
  destruct (brace_key s) as [[[g1 g2] rest]|] eqn:Es; [|reflexivity].
  exfalso. apply (insert_commas_settled Hk).
  exists pre, s. split; [exact E|]. apply brace_key_site_iff. congruence.
Qed.

Lemma basic_repair_complete_witness :
  single_line_keys two_blocks /\
  fix_json_syntax two_blocks =
    (opening 4 "key1" ++ LF :: member 8 "value" "a" ++ [LF])
      ++ (closing 4 ++ COMMA :: LF :: opening 4 "key2" ++ LF
            :: member 8 "value" "b" ++ LF :: closing 4) /\
  re_match pat_brace_key
    (closing 4 ++ COMMA :: LF :: opening 4 "key2" ++ LF
       :: member 8 "value" "b" ++ LF :: closing 4) = None.
Proof.
  assert (Hk : single_line_keys two_blocks).
  { apply single_line_keys_check. vm_compute. reflexivity. }
  assert (E : fix_json_syntax two_blocks =
    (opening 4 "key1" ++ LF :: member 8 "value" "a" ++ [LF])
      ++ (closing 4 ++ COMMA :: LF :: opening 4 "key2" ++ LF
            :: member 8 "value" "b" ++ LF :: closing 4)).
  { vm_compute. reflexivity. }
  split; [exact Hk|]. split; [exact E|].
  exact (basic_repair_complete Hk _ _ E).
Defined.

(** X9: when no closing-brace line is directly followed by a key-opening
    line and no comma stands before a closing brace, the comprehensive
    variant returns what the basic variant returns. *)
Theorem comprehensive_is_basic (t : text) :
  ~ adjacent_site (split LF t) ->
  ~ occurs trailing_comma_site t ->
  fix_json_comprehensive t = Ok (fix_json_syntax t).
Proof.
  intros HA HT. rewrite fix_json_comprehensive_eq.
  rewrite append_commas_noop by exact HA.
  now rewrite remove_commas_noop by exact HT.
Qed.

Lemma comprehensive_is_basic_witness :
  ~ adjacent_site (split LF blank_between) /\
  ~ occurs trailing_comma_site blank_between /\
  fix_json_comprehensive blank_between = Ok (fix_json_syntax blank_between).
Proof.
  assert (HA : ~ adjacent_site (split LF blank_between)).
  { rewrite <- any_adjacent_spec. vm_compute. discriminate. }
  assert (HT : ~ occurs trailing_comma_site blank_between).
  { rewrite <- has_trailing_comma_site. vm_compute. discriminate. }
  split; [exact HA|]. split; [exact HT|].
  exact (comprehensive_is_basic HA HT).
Defined.

(** X10: whatever the pattern and the replacement, a substitution returns
    the text as it is when the pattern matches at no position. *)
Theorem re_sub_without_match (r : regex) (repl : captures -> text) (s : text) :
  (forall pre suf, s = pre ++ suf -> re_match r suf = None) ->
  re_sub r repl s = s.
Proof.
  induction s as [|c s IH]; intros H; [reflexivity|].
  rewrite re_sub_skip by (apply (H []); reflexivity).
  f_equal. apply IH. intros pre suf ->. now apply (H (c :: pre)).
Qed.

Lemma re_sub_without_match_witness :
  (forall pre suf,
      closing 4 = pre ++ suf -> re_match pat_trailing_comma suf = None) /\
  re_sub pat_trailing_comma keep_brace (closing 4) = closing 4.
Proof.
  assert (H : forall pre suf,
      closing 4 = pre ++ suf -> re_match pat_trailing_comma suf = None).
  { intros pre suf E. rewrite re_match_trailing_comma'.
    destruct (trailing_comma suf) as [[g rest]|] eqn:Es; [|reflexivity].
    exfalso.
    assert (Ho : occurs trailing_comma_site (closing 4)).
    { exists pre, suf. split; [exact E|].
      apply trailing_comma_site_iff. congruence. }
    apply has_trailing_comma_site in Ho. vm_compute in Ho. discriminate. }
  split; [exact H|exact (re_sub_without_match _ _ H)].
Defined.

(** X11: at a match of the comma-adding pattern the two groups and the
    line feed between them are the whole match, group 1 is white space
    and a closing brace, and [add_comma] returns the match with one comma
    put behind that brace. *)
Theorem add_comma_at_match (s : text) (m : captures) (rest : text) :
  re_match pat_brace_key s = Some (m, rest) ->
  s = group m 1 ++ LF :: group m 2 ++ rest /\
  brace_end_text (group m 1) /\
  key_line_text (group m 2) /\
  add_comma m = group m 1 ++ COMMA :: LF :: group m 2.
Proof.
  rewrite re_match_brace_key'.
  destruct (brace_key s) as [[[g1 g2] r]|] eqn:E; [|discriminate].
  intros [= <- <-]. apply brace_key_spec in E as (H1 & H2 & ->).
  repeat split; auto.
Qed.

Lemma add_comma_at_match_witness :
  re_match pat_brace_key (closing 1 ++ LF :: opening 1 "k") =
    Some ([(2, opening 1 "k"); (1, closing 1)], []) /\
  closing 1 ++ LF :: opening 1 "k" =
    group [(2, opening 1 "k"); (1, closing 1)] 1
      ++ LF :: group [(2, opening 1 "k"); (1, closing 1)] 2 ++ [] /\
  brace_end_text (group [(2, opening 1 "k"); (1, closing 1)] 1) /\
  key_line_text (group [(2, opening 1 "k"); (1, closing 1)] 2) /\
  add_comma [(2, opening 1 "k"); (1, closing 1)] =
    group [(2, opening 1 "k"); (1, closing 1)] 1
      ++ COMMA :: LF :: group [(2, opening 1 "k"); (1, closing 1)] 2.
Proof.
  assert (H : re_match pat_brace_key (closing 1 ++ LF :: opening 1 "k") =
              Some ([(2, opening 1 "k"); (1, closing 1)], []))
    by reflexivity.
  split; [exact H|exact (add_comma_at_match _ H)].
Defined.

(** X12: both variants return a text with as many lines as the input. *)
Theorem line_count_kept (content : text) :
  length (split LF (fix_json_syntax content)) = length (split LF content) /\
  exists fixed,
    fix_json_comprehensive content = Ok fixed /\
    length (split LF fixed) = length (split LF content).
Proof.
  split.
  - apply same_line_count, without_commas_added, inserted_commas_added,
      insert_commas_inserted.
  - exists (insert_commas (remove_commas (append_commas content))).
    split; [apply fix_json_comprehensive_eq|]. apply same_line_count.
    rewrite (without_commas_added
               (inserted_commas_added (insert_commas_inserted _))).
    rewrite (without_commas_removed (remove_commas_removed _)).
    apply without_commas_append.
Qed.

(** X13: a text without line feed gets no comma from either variant: the
    basic variant returns it as it is, and the comprehensive variant
    returns what its cleanup substitution alone makes of it. *)
Theorem one_line_text (t : text) :
  ~ In LF t ->
  fix_json_syntax t = t /\
  fix_json_comprehensive t = Ok (re_sub pat_trailing_comma keep_brace t).
Proof.
  intros H. split.
  - now apply insert_commas_noop, no_lf_no_site.
  - rewrite fix_json_comprehensive_eq. unfold append_commas.
    rewrite split_no_sep by exact H. simpl.
    unfold fix_line. rewrite andb_false_r.
    apply f_equal, insert_commas_noop, no_lf_no_site.
    revert H. apply no_lf_removed, remove_commas_removed.
Qed.

Lemma one_line_text_witness :
  ~ In LF (member 0 "value" "a" ++ [COMMA; RBRACE]) /\
  fix_json_syntax (member 0 "value" "a" ++ [COMMA; RBRACE]) =
    member 0 "value" "a" ++ [COMMA; RBRACE] /\
  fix_json_comprehensive (member 0 "value" "a" ++ [COMMA; RBRACE]) =
    Ok (re_sub pat_trailing_comma keep_brace
          (member 0 "value" "a" ++ [COMMA; RBRACE])).
Proof.
  assert (H : ~ In LF (member 0 "value" "a" ++ [COMMA; RBRACE])).
  { vm_compute. intuition discriminate. }
  split; [exact H|exact (@one_line_text _ H)].
Defined.
